(** * Fourier-domain operators and the angular spectrum propagator of hcipy

    A shallow embedding of
    - [hcipy/fourier/fourier_operations.py]: [FourierFilter], [FourierShift],
      [FourierShear] and [FourierRotation];
    - [hcipy/propagation/angular_spectrum.py]: [AngularSpectrumPropagator].

    Numbers are exact: complex values live in an arbitrary
    [numClosedFieldType] (the algebraic numbers [algC] for concrete runs),
    real parameters in an arbitrary [realFieldType] ([rat] for concrete
    runs).  numpy arrays are C-ordered flat arrays [nat -> C] together with
    their shape; an hcipy [Field] is such an array whose leading axes are the
    tensor axes and whose trailing axes are the (reversed) grid axes. *)

From HB Require Import structures.
From mathcomp Require Import boot order algebra field.
Import GRing.Theory Num.Theory Order.Theory.

Set Implicit Arguments.
Unset Strict Implicit.
Unset Printing Implicit Defensive.

Local Open Scope ring_scope.

(** ** numpy arrays and the discrete Fourier transform *)
Module NDArray.
Section Arrays.
Variable C : numClosedFieldType.

(** Entries of a C-ordered array at flat indices. *)
Definition array := nat -> C.

Definition numel (sh : seq nat) : nat := foldr muln 1%N sh.

(** Flat-index distance between two consecutive entries along axis [a]. *)
Definition stride (sh : seq nat) (a : nat) : nat := numel (drop a.+1 sh).

(** Index along axis [a] of the entry at flat index [p]. *)
Definition coord (sh : seq nat) (a p : nat) : nat :=
  (p %/ stride sh a) %% nth 0%N sh a.

(** numpy's normalisation of a (possibly negative) axis of an [n]-d array. *)
Definition norm_axis (n : nat) (a : int) : nat :=
  match a with
  | Posz k => k
  | Negz k => (n - k.+1)%N
  end.

(** The standard inner product of two arrays of [n] entries. *)
Definition vdot (n : nat) (x y : array) : C := \sum_(p < n) x p * (y p)^*.

(** A linear transform given by its kernel, and the transform with the
    conjugated, transposed kernel scaled by [1/m]. *)
Definition ktrans (n : nat) (K : nat -> nat -> C) (x : array) : array :=
  fun k => \sum_(j < n) K k j * x j.

Definition kinv (n : nat) (K : nat -> nat -> C) (m : nat) (y : array) : array :=
  fun j => m%:R^-1 * \sum_(k < n) (K k j)^* * y k.

(** [omega n] is numpy's twiddle factor [exp(-2 pi i / n)] for a transform
    of length [n]. *)
Variable omega : nat -> C.

(** Kernel of [numpy.fft.fftn(x, axes)] on an array of shape [sh]: the
    product of the one-dimensional twiddles over the transformed axes, and
    equality of the indices along every other axis. *)
Definition fft_kernel (sh : seq nat) (axes : seq nat) (k j : nat) : C :=
  (\prod_(a <- axes) omega (nth 0%N sh a) ^+ (coord sh a k * coord sh a j)) *
  (all (fun a => (a \in axes) || (coord sh a k == coord sh a j))
       (iota 0 (size sh)) : nat)%:R.

(** [numpy.fft.fftn] and [numpy.fft.ifftn]; the inverse transform has the
    conjugate twiddles [exp(+2 pi i / n)] and the factor [1 / prod n]. *)
Definition fftn (sh : seq nat) (axes : seq nat) : array -> array :=
  ktrans (numel sh) (fft_kernel sh axes).

Definition ifftn (sh : seq nat) (axes : seq nat) : array -> array :=
  kinv (numel sh) (fft_kernel sh axes) (\prod_(a <- axes) nth 0%N sh a).

End Arrays.
End NDArray.

Import NDArray.


(** ** Python-level values shared by the operators *)
Module Py.

(** Exceptions raised by the modelled code paths. *)
Inductive pyexc := ValueError | AttributeError | IndexError.

Inductive result (A : Type) := Ok of A | Err of pyexc.
Arguments Ok {A}.
Arguments Err {A}.

(** numpy dtypes of fields. *)
Inductive dtype := float32 | float64 | complex64 | complex128.

Definition dtype_code (d : dtype) : nat :=
  match d with float32 => 0 | float64 => 1 | complex64 => 2 | complex128 => 3 end%N.
Definition dtype_of_code (n : nat) : dtype :=
  match n with 0 => float32 | 1 => float64 | 2 => complex64 | _ => complex128 end%N.
Lemma dtype_codeK : cancel dtype_code dtype_of_code. Proof. by case. Qed.
HB.instance Definition _ := Equality.copy dtype (can_type dtype_codeK).

Definition is_complex_dtype (d : dtype) : bool :=
  match d with complex64 | complex128 => true | _ => false end.

(** dtype of [numpy.fft] output for an input of dtype [d] under numpy 2 (numpy 1 returns complex128 for every input). *)
Definition complex_dtype (d : dtype) : dtype :=
  match d with float32 | complex64 => complex64 | _ => complex128 end.

End Py.

Import Py.

(** ** Fields and the numpy array operations they go through *)
Module Fields.
Section Fields.
Variable C : numClosedFieldType.

(** An hcipy [Field]: dtype, tensor shape, shaped dimensions of its grid
    (numpy order) and its entries in the C-ordered [shaped] layout. *)
Record field := Field {
  f_dtype : dtype;
  f_tensor_shape : seq nat;
  f_grid_shape : seq nat;
  f_vals : array C }.

Definition tensor_order (u : field) : nat := size (f_tensor_shape u).
Definition shaped_shape (u : field) : seq nat := f_tensor_shape u ++ f_grid_shape u.

(** A numpy array with its dtype and shape. *)
Record ndarray := NDArr { a_dtype : dtype; a_shape : seq nat; a_vals : array C }.

(** [arr.astype(d)]: casting to a real dtype keeps the real part. *)
Definition astype (d : dtype) (t : ndarray) : ndarray :=
  NDArr d (a_shape t)
    (fun p => if is_complex_dtype d then a_vals t p else 'Re (a_vals t p)).

(** [numpy.fft.ifftshift(x, axes)]: entry [k] along a shifted axis of length
    [n] is entry [(k + n // 2) mod n] of the input. *)
Definition ifftshift (sh : seq nat) (axes : seq nat) (x : array C) : array C :=
  fun p => x (\sum_(a < size sh)
     (if (a : nat) \in axes then (coord sh a p + nth 0%N sh a %/ 2) %% nth 0%N sh a
      else coord sh a p) * stride sh a)%N.

(** numpy broadcasting (right aligned) of shape [vsh] onto shape [sh], and
    the entry of the broadcast array found at flat index [p] of [sh]. *)
Definition broadcastable (vsh sh : seq nat) : bool :=
  (size vsh <= size sh)%N &&
  all2 (fun v s => (v == s) || (v == 1%N)) vsh (drop (size sh - size vsh) sh).

Definition bcast_index (vsh sh : seq nat) (p : nat) : nat :=
  (\sum_(a < size vsh)
     (if nth 0%N vsh a == 1%N then 0%N
      else coord sh (size sh - size vsh + a) p) * stride vsh a)%N.

(** A Python value returned by an operator: a field or a tuple. *)
Inductive pyval := PField of field | PTuple of seq pyval.

(** [field.astype('complex')]. *)
Definition astype_complex (u : field) : field :=
  Field complex128 (f_tensor_shape u) (f_grid_shape u) (f_vals u).

End Fields.
End Fields.

Import Fields.

(** ** [FourierFilter] *)
Module Filter.
Section Filter.
Variable C : numClosedFieldType.
Variable omega : nat -> C.
Local Notation field := (field C).
Local Notation ndarray := (ndarray C).

(** The nominal transfer function: a generator called on the internal grid
    (given by its shaped dimensions) or a fixed field. *)
Inductive transfer := TFGenerator of (seq nat -> ndarray) | TFField of ndarray.

(** What [__init__] derives from [FastFourierTransform(input_grid, q)]: the
    shaped dimensions of the input and internal grids and, when [q > 1], the
    start [offs_i] of each spatial slice of [cutout], which runs over the
    input's length along that axis. *)
Record config := Config {
  input_shape : seq nat;
  internal_shape : seq nat;
  cutout : option (seq nat) }.

(** The mutable attributes: [transfer_function], [_transfer_function] and
    [internal_array] (its dtype and shape). *)
Record state := State {
  transfer_function : transfer;
  _transfer_function : option ndarray;
  internal_array : option (dtype * seq nat) }.

(** [__init__]. *)
Definition init (tf : transfer) : state := State tf None None.

(** Assignment [filter.transfer_function = tf] (a plain attribute). *)
Definition set_transfer_function (st : state) (tf : transfer) : state :=
  State tf (_transfer_function st) (internal_array st).

(** Line 47: is the cached transfer function absent or of another dtype? *)
Definition tf_stale (st : state) (u : field) : bool :=
  match _transfer_function st with
  | None => true
  | Some t => a_dtype t != f_dtype u
  end.

(** Lines 56-59: the reallocation test of the scratch buffer. *)
Definition recompute_internal_array (st : state) (u : field) : bool :=
  match internal_array st with
  | None => true
  | Some (d, sh) =>
      [|| size sh != (size (f_grid_shape u) + tensor_order u)%N,
          d != f_dtype u
        | take (tensor_order u) sh == f_tensor_shape u]
  end.

(** Lines 48-54: the transfer function [_compute_functions] caches for a
    field of dtype [d], computed from the nominal one. *)
Definition computed_tf (cfg : config) (tf : transfer) (d : dtype) : ndarray :=
  let t := match tf with
           | TFGenerator g => g (internal_shape cfg)
           | TFField t => t
           end in
  let sh := a_shape t in
  let nd := size (input_shape cfg) in
  astype d (NDArr (a_dtype t) sh (ifftshift sh (iota (size sh - nd) nd) (a_vals t))).

(** [_compute_functions]. *)
Definition compute_functions (cfg : config) (st : state) (u : field) : state :=
  let tfc :=
    if tf_stale st u then Some (computed_tf cfg (transfer_function st) (f_dtype u))
    else _transfer_function st in
  let ia :=
    if recompute_internal_array st u
    then Some (f_dtype u, f_tensor_shape u ++ internal_shape cfg)
    else internal_array st in
  State (transfer_function st) tfc ia.

(** Offset of axis [a] in the slice tuple
    [c = (slice(None),) * k + cutout]. *)
Definition slice_start (k : nat) (offs : seq nat) (a : nat) : nat :=
  if (a < k)%N then 0%N else nth 0%N offs (a - k).

(** Shape of [arr[c]] for an array of shape [sh] with at least
    [k + size ns] axes, the cutout slices [offs_i : offs_i + ns_i] being
    clipped at the end of their axes (numpy slicing); the axes after them
    are kept whole. *)
Definition region_shape (sh : seq nat) (k : nat) (offs ns : seq nat) : seq nat :=
  take k sh ++
  [seq (minn (nth 0%N offs i + nth 0%N ns i) (nth 0%N sh (k + i)) - nth 0%N offs i)%N
  | i <- iota 0 (size ns)] ++ drop (k + size ns) sh.

Definition in_region (sh : seq nat) (k : nat) (offs ns : seq nat) (p : nat) : bool :=
  all (fun i => (nth 0%N offs i <= coord sh (k + i) p < nth 0%N offs i + nth 0%N ns i)%N)
      (iota 0 (size ns)).

(** numpy's assignment [dst[c] = v] of a value of shape [vsh] to a region
    of shape [rsh]: leading axes of length 1 beyond the region's axes are
    dropped, and the rest broadcasts (right aligned) onto the region. *)
Definition assign_shape (vsh rsh : seq nat) : seq nat := drop (size vsh - size rsh) vsh.

Definition assignable (vsh rsh : seq nat) : bool :=
  all (fun n => n == 1%N) (take (size vsh - size rsh) vsh) &&
  broadcastable (assign_shape vsh rsh) rsh.

(** [buf[:] = 0; buf[c] = v] for a buffer of shape [bsh], cutout slices
    [offs_i : offs_i + ns_i] and a value [v] of shape [vsh] (already
    stripped by [assign_shape]) broadcast onto the region. *)
Definition pad (bsh : seq nat) (k : nat) (offs ns : seq nat) (vsh : seq nat)
    (v : array C) : array C :=
  fun p =>
    if in_region bsh k offs ns p then
      v (\sum_(a < size vsh)
           (if nth 0%N vsh a == 1%N then 0%N
            else coord bsh (size bsh - size vsh + a) p
                 - slice_start k offs (size bsh - size vsh + a)) * stride vsh a)%N
    else 0.

(** [arr[c]] for an array of shape [sh]; [rsh] is the shape of the region. *)
Definition cut (sh : seq nat) (k : nat) (offs : seq nat) (rsh : seq nat)
    (f : array C) : array C :=
  fun i => f (\sum_(a < size rsh)
                (coord rsh a i + slice_start k offs a) * stride sh a)%N.

(** [f *= tf] (or [f *= tf.conj()]) for a scalar transfer function. *)
Definition apply_scalar (fsh tsh : seq nat) (H : array C) (adjoint : bool)
    (f : array C) : array C :=
  fun p => f p * (if adjoint then (H (bcast_index tsh fsh p))^* else H (bcast_index tsh fsh p)).

(** [field_dot(A, x)] ([hcipy.field.field_dot]) of a [Q x R] matrix field
    [A] and a field [x] of tensor shape [R :: rest], both on [N] points
    ([einsum('ij...,jk...->ik...')], or ['ij...,j...->i...'] when [rest] is
    empty): entry [(i, r, n)] of the result is [sum_j A[i,j,n] * x[j,r,n]],
    where [K] is the number of entries of [rest]. *)
Definition field_dot_mm (R K N : nat) (A x : array C) : array C :=
  fun o => \sum_(j < R) A (((o %/ (K * N)) * R + j) * N + o %% N)%N *
                        x ((j * K + (o %/ N) %% K) * N + o %% N)%N.

(** [field_dot(A, x)] for a scalar field [x] on [N] points
    ([einsum('ij...,j...->i...')]): the one axis of [x] takes the place of
    [j] (numpy requires [R = N]), and entry [(i, n)] of the result is
    [sum_j A[i,j,n] * x[j]]. *)
Definition field_dot_ms (R N : nat) (A x : array C) : array C :=
  fun o => \sum_(j < R) A (((o %/ N) * R + j) * N + o %% N)%N * x j.

(** [field_conjugate_transpose] of a [P x M] matrix field on [N] points. *)
Definition field_conjugate_transpose (P M N : nat) (A : array C) : array C :=
  fun q => (A ((((q %/ N) %% P) * M + (q %/ N) %/ P) * N + q %% N)%N)^*.

(** Lines 126-145 on the transformed array [f] of shape [fsh]: the matrix
    branch when [tf.ndim - internal_grid.ndim == 2], the scalar branch
    otherwise. In the matrix branch [f] and [tf] are reshaped to
    [shape[:-ndim] + (internal_grid.size,)] (a [ValueError] when the number
    of entries differs), and [field_dot(tf, f).shaped] has the shape
    [(Q,) + rest + internal_grid.shape]. Python's [shape[:-n]] is
    [take (size shape - n) shape] (for [n >= 1]). numpy errors are
    [ValueError]. *)
Definition apply_transfer (cfg : config) (tf : ndarray) (adjoint : bool)
    (fsh : seq nat) (f : array C) : result (seq nat * array C) :=
  let nsh := internal_shape cfg in
  let ndi := size nsh in
  let N := numel nsh in
  let tsh := a_shape tf in
  if (size tsh - ndi == 2)%N then
    let s1 := take (size fsh - ndi) fsh in
    let s2 := take (size tsh - ndi) tsh in
    if (numel fsh != numel s1 * N)%N || (numel tsh != numel s2 * N)%N then Err ValueError
    else
      match s2 with
      | [:: P; M] =>
          let '(Q, R', A) :=
            if adjoint then (M, P, field_conjugate_transpose P M N (a_vals tf))
            else (P, M, a_vals tf) in
          match s1 with
          | [::] =>
              if R' == N then Ok (Q :: nsh, field_dot_ms R' N A f) else Err ValueError
          | R :: rest =>
              if R == R' then Ok (Q :: rest ++ nsh, field_dot_mm R (numel rest) N A f)
              else Err ValueError
          end
      | _ => Err ValueError (* [s2] has two entries in this branch *)
      end
  else if broadcastable tsh fsh then Ok (fsh, apply_scalar fsh tsh (a_vals tf) adjoint f)
  else Err ValueError.

(** Lines 111-159 of [_operation(field, adjoint)], given the cached
    transfer function [tfc] and scratch buffer [ia] left by
    [_compute_functions]. The cutout slices are
    [offs_i : offs_i + input_shape_i]; too many indices ([f[c]]) and FFT
    axes beyond the array's axes are [IndexError]; a failed broadcast or
    reshape is [ValueError]. The result is [Field(res, input_grid)]. *)
Definition filter_field (cfg : config) (tfc : option ndarray)
    (ia : option (dtype * seq nat)) (u : field) (adjoint : bool) : result field :=
  let ish := input_shape cfg in
  let nd := size ish in
  let ndi := size (internal_shape cfg) in
  let k := tensor_order u in
  let vsh := shaped_shape u in
  let fin :=
    match cutout cfg with
    | None => Ok (vsh, f_vals u)
    | Some offs =>
        match ia with
        | Some (_, bsh) =>
            if (size bsh < k + nd)%N then Err IndexError
            else
              let rsh := region_shape bsh k offs ish in
              if assignable vsh rsh
              then Ok (bsh, pad bsh k offs ish (assign_shape vsh rsh) (f_vals u))
              else Err ValueError
        | None => Err ValueError
        end
    end in
  match fin, tfc with
  | Ok (fsh, f), Some tf =>
      if (size fsh < nd)%N then Err IndexError else
      let F := fftn omega fsh (iota (size fsh - nd) nd) f in
      match apply_transfer cfg tf adjoint fsh F with
      | Ok (gsh, g) =>
          if (size gsh < nd)%N then Err IndexError else
          let I := ifftn omega gsh (iota (size gsh - nd) nd) g in
          let s := take (size gsh - ndi) gsh in
          let res :=
            match cutout cfg with
            | None => Ok (numel gsh, I)
            | Some offs =>
                if (size gsh < k + nd)%N then Err IndexError
                else
                  let rsh := region_shape gsh k offs ish in
                  Ok (numel rsh, cut gsh k offs rsh I)
            end in
          match res with
          | Ok (n, r) =>
              if (0 < numel s)%N && (numel s %| n)%N
              then Ok (Field (complex_dtype (f_dtype u)) s ish r)
              else Err ValueError
          | Err e => Err e
          end
      | Err e => Err e
      end
  | Err e, _ => Err e
  | Ok _, None => Err ValueError
  end.

(** [_operation(field, adjoint)]: the new state and the filtered field. *)
Definition operation (cfg : config) (st0 : state) (u : field) (adjoint : bool) :
    result (state * field) :=
  let st := compute_functions cfg st0 u in
  match filter_field cfg (_transfer_function st) (internal_array st) u adjoint with
  | Ok f => Ok (st, f)
  | Err e => Err e
  end.

Definition forward (cfg : config) (st : state) (u : field) := operation cfg st u false.
Definition backward (cfg : config) (st : state) (u : field) := operation cfg st u true.

(** The shapes [FastFourierTransform(input_grid, q)] hands to [__init__]
    ([fast_fourier_transform.py], not part of [fourier_operations.py]): an
    internal grid of the input's dimension; without [cutout] it is the input
    grid itself, with [cutout] each slice [offs_j : offs_j + n_j] of the
    input's length [n_j] lies inside the internal axis. *)
Definition config_ok (cfg : config) : bool :=
  let ish := input_shape cfg in
  let nsh := internal_shape cfg in
  (size nsh == size ish) &&
  match cutout cfg with
  | None => nsh == ish
  | Some offs =>
      (size offs == size ish) &&
      all (fun j => nth 0%N offs j + nth 0%N ish j <= nth 0%N nsh j)%N (iota 0 (size ish))
  end.

(** The scratch buffer [ia] is the one [internal_grid.zeros(field.tensor_shape)]
    allocates for [u]; the buffer is only read when there is a [cutout]. *)
Definition buffer_fits (cfg : config) (ia : option (dtype * seq nat)) (u : field) : bool :=
  match cutout cfg with
  | None => true
  | Some _ =>
      match ia with
      | Some (_, sh) => sh == f_tensor_shape u ++ internal_shape cfg
      | None => false
      end
  end.

End Filter.
End Filter.

(** ** Grids (the attributes the operators read) *)
Module Grids.

Record grid (R : Type) := Grid {
  is_regular : bool;
  is_cartesian : bool;
  dims : seq nat;                   (* samples per axis, x first *)
  delta : seq R;                    (* spacing per axis *)
  separated_coords : seq (seq R) }. (* coordinates along each axis *)

Definition ndim (R : Type) (g : grid R) : nat := size (dims g).


End Grids.

Import Grids.

(** ** [FourierShift] *)
Module Shift.
Section Shift.
Variable R : realFieldType.
Variable C : numClosedFieldType.
Variable omega : nat -> C.
Local Notation field := (field C).

(** The phase ramp [exp(-i k . shift)] computed by
    [_numexpr_grid_shift(-shift, fft_grid)] of [fast_fourier_transform.py],
    in the shaped layout of the reduced Fourier grid of shaped dimensions
    [sh]. Nothing below depends on its values. *)
Variable numexpr_grid_shift : seq R -> seq nat -> array C.

(** Attributes: the shaped dimensions of [input_grid], [_shift],
    [_ft_axes] and [_shift_filter] (its shape and entries). *)
Record state := State {
  input_grid_shape : seq nat;
  _shift : seq R;
  _ft_axes : seq int;
  _shift_filter : option (seq nat * array C) }.

(** [numpy.flatnonzero]. *)
Definition flatnonzero (s : seq R) : seq nat :=
  [seq i <- iota 0 (size s) | nth 0 s i != 0].

(** The [shift] setter (lines 189-214). *)
Definition set_shift (gsh : seq nat) (shift : seq R) : state :=
  let mask := [seq x != 0 | x <- shift] in
  let ft_axes := [seq (i%:Z - 1)%R | i <- flatnonzero shift] in
  if ft_axes is [::] then State gsh shift ft_axes None
  else
    let bshape := [seq (if m.1 then m.2 else 1%N) | m <- zip (rev mask) gsh] in
    let fsh := [seq m.2 | m <- zip (rev mask) gsh & m.1] in
    let filt := ifftshift fsh (iota 0 (size fsh))
                  (numexpr_grid_shift [seq - x | x <- shift] fsh) in
    State gsh shift ft_axes (Some (bshape, filt)).

(** [__init__(input_grid, shift)]. *)
Definition init (gsh : seq nat) (shift : seq R) : state := set_shift gsh shift.

(** The numpy axes handed to [fftn]/[ifftn] for a field of shape [fsh]. *)
Definition fft_axes (st : state) (fsh : seq nat) : seq nat :=
  [seq norm_axis (size fsh) a | a <- _ft_axes st].

(** [_operation(field, adjoint)] (lines 246-267). *)
Definition operation (st : state) (u : field) (adjoint : bool) : result field :=
  match _shift_filter st with
  | None => Ok (astype_complex u)
  | Some (bsh, sf) =>
      let fsh := shaped_shape u in
      let axes := fft_axes st fsh in
      let F := fftn omega fsh axes (f_vals u) in
      if broadcastable bsh fsh then
        let G := fun p => F p * (if adjoint then (sf (bcast_index bsh fsh p))^*
                                 else sf (bcast_index bsh fsh p)) in
        Ok (Field (complex_dtype (f_dtype u)) (f_tensor_shape u) (f_grid_shape u)
                  (ifftn omega fsh axes G))
      else Err ValueError
  end.

Definition forward (st : state) (u : field) := operation st u false.
Definition backward (st : state) (u : field) := operation st u true.

End Shift.
End Shift.

(** ** [FourierShear] *)
Module Shear.
Section Shear.
Variable R : realFieldType.
Variable C : numClosedFieldType.
Variable omega : nat -> C.
Local Notation field := (field C).
Local Notation pyval := (pyval C).

(** [phase t] is [numpy.exp(-1j * t)]. *)
Variable phase : R -> C.
(** Separated coordinates of [make_fft_grid(input_grid)]
    ([fast_fourier_transform.py]). *)
Variable fft_separated_coords : grid R -> seq (seq R).

(** Attributes: [_input_grid], [_shear_dim], [_shear] and [_filter] (its
    shape and entries). *)
Record state := State {
  _input_grid : grid R;
  _shear_dim : nat;
  _shear : R;
  _filter : seq nat * array C }.

Definition fourier_dim (shear_dim : nat) : nat := if shear_dim == 0%N then 1%N else 0%N.

(** The filter built by the [shear] setter (lines 325-337):
    [exp(-1j * shear * np.outer(y, fx))], transposed when [shear_dim == 1]. *)
Definition make_filter (g : grid R) (shear_dim : nat) (shear : R) : seq nat * array C :=
  let fx0 := nth [::] (fft_separated_coords g) shear_dim in
  let n := size fx0 in
  let fx := [seq nth 0 fx0 ((c + n %/ 2) %% n) | c <- iota 0 n] in
  let y := nth [::] (separated_coords g) (fourier_dim shear_dim) in
  let ny := size y in
  if shear_dim == 1%N then
    ([:: n; ny], fun p => phase (shear * nth 0 y (p %% ny) * nth 0 fx (p %/ ny)))
  else
    ([:: ny; n], fun p => phase (shear * nth 0 y (p %/ n) * nth 0 fx (p %% n))).

Definition set_shear (st : state) (shear : R) : state :=
  State (_input_grid st) (_shear_dim st) shear (make_filter (_input_grid st) (_shear_dim st) shear).

(** [__init__(input_grid, shear, shear_dim)] (lines 300-306). *)
Definition init (g : grid R) (shear : R) (shear_dim : nat) : result state :=
  if ~~ is_regular g || (ndim g != 2%N) then Err ValueError
  else Ok (State g shear_dim shear (make_filter g shear_dim shear)).

(** [_operation(field, adjoint)] (lines 371-389); [field.shaped] of a value
    that is not a field raises [AttributeError]. *)
Definition operation (st : state) (v : pyval) (adjoint : bool) : result field :=
  match v with
  | PTuple _ => Err AttributeError
  | PField u =>
      let fsh := shaped_shape u in
      let ax := [:: norm_axis (size fsh) (- (_shear_dim st)%:Z - 1)%R] in
      let F := fftn omega fsh ax (f_vals u) in
      let '(hsh, h) := _filter st in
      if broadcastable hsh fsh then
        let G := fun p => F p * (if adjoint then (h (bcast_index hsh fsh p))^*
                                 else h (bcast_index hsh fsh p)) in
        Ok (Field (complex_dtype (f_dtype u)) (f_tensor_shape u) (f_grid_shape u)
                  (ifftn omega fsh ax G))
      else Err ValueError
  end.

Definition forward (st : state) (v : pyval) := operation st v false.
Definition backward (st : state) (v : pyval) := operation st v true.

End Shear.
End Shear.

(** ** [FourierRotation] *)
Module Rotation.
Section Rotation.
Variable R : realFieldType.
Variable C : numClosedFieldType.
Variable omega : nat -> C.
Variable phase : R -> C.
Variable fft_separated_coords : grid R -> seq (seq R).
(** [numpy.tan] and [numpy.sin]. *)
Variables (tan sin : R -> R).
Local Notation pyval := (pyval C).
Local Notation shear_state := (Shear.state R C).

Record state := State {
  _input_grid : grid R;
  _shear_x : shear_state;
  _shear_y : shear_state;
  _angle : R }.

(** The [angle] setter (lines 422-426). *)
Definition set_angle (st : state) (angle : R) : state :=
  State (_input_grid st)
    (Shear.set_shear phase fft_separated_coords (_shear_x st) (tan (angle / 2%:R)))
    (Shear.set_shear phase fft_separated_coords (_shear_y st) (- sin angle))
    angle.

(** [__init__(input_grid, angle)] (lines 406-415). *)
Definition init (g : grid R) (angle : R) : result state :=
  if ~~ is_regular g || (ndim g != 2%N) then Err ValueError
  else
    match Shear.init phase fft_separated_coords g 0 0,
          Shear.init phase fft_separated_coords g 0 1 with
    | Ok sx, Ok sy => Ok (set_angle (State g sx sy angle) angle)
    | Err e, _ | _, Err e => Err e
    end.

(** [_operation(field, adjoint)] (lines 458-463): the three shears, and
    the tuple [(f1, f2, f3)] as return value. *)
Definition operation (st : state) (v : pyval) (adjoint : bool) : result pyval :=
  match Shear.operation omega (_shear_x st) v adjoint with
  | Err e => Err e
  | Ok f1 =>
      match Shear.operation omega (_shear_y st) (PField f1) adjoint with
      | Err e => Err e
      | Ok f2 =>
          match Shear.operation omega (_shear_x st) (PField f2) adjoint with
          | Err e => Err e
          | Ok f3 => Ok (PTuple [:: PField f1; PField f2; PField f3])
          end
      end
  end.

Definition forward (st : state) (v : pyval) := operation st v false.
Definition backward (st : state) (v : pyval) := operation st v true.

End Rotation.
End Rotation.

(** ** [AngularSpectrumPropagator] *)
Module ASP.
Section ASP.
Variable R : realFieldType.
Variable C : numClosedFieldType.
Variable omega : nat -> C.
Local Notation field := (field C).

(** The parameters read by [make_instance]. *)
Record propagator := Propagator {
  distance : R;
  num_oversampling : nat;
  refractive_index : R }.

(** The two transfer-function constructions of [make_instance]: the
    Fourier transform of the oversampled impulse response (lines 53-66) and
    [exp(1j * k_z * distance)] evaluated in frequency space (lines 68-75). *)
Inductive construction := ImpulseResponse | TransferFunctionNative.

(** [numpy.max] of a one-dimensional array. *)
Definition np_max (s : seq R) : result R :=
  match s with
  | [::] => Err ValueError
  | x :: s' => Ok (foldl Num.max x s')
  end.

(** [L_max = np.max(input_grid.dims * input_grid.delta)]. *)
Definition L_max (g : grid R) : result R :=
  np_max [seq (m.1)%:R * m.2 | m <- zip (dims g) (delta g)].

(** The construction chosen by [make_instance(instance_data, input_grid,
    output_grid, wavelength)] (lines 45-77). *)
Definition make_instance (p : propagator) (g : grid R) (wavelength : R) :
    result construction :=
  if ~~ (is_regular g && is_cartesian g) then Err ValueError
  else
    match L_max g with
    | Err e => Err e
    | Ok Lm =>
        if has (fun d => d < wavelength * distance p / Lm) (delta g)
        then Ok ImpulseResponse
        else Ok TransferFunctionNative
    end.

(** Modelled from the spec: the [Wavefront] class of [hcipy/optics]
    (outside src), "electric_field (a Field), wavelength, ...,
    input_stokes_vector"; its constructor stores the three arguments. *)
Record wavefront := Wavefront {
  electric_field : field;
  wavelength : R;
  input_stokes_vector : option (seq R) }.

(** Modelled from the spec: the decorators [make_agnostic_forward] and
    [make_agnostic_backward] of [hcipy/optics] (outside src).  They look up
    the instance data cached for the wavefront's grid and wavelength (here
    the [FourierFilter] of that instance: [cfg] and its state [st]) and return
    what the decorated method returns ("forward/backward delegate directly to
    that filter's forward/backward"). *)
Definition agnostic_call
    (meth : Filter.config -> Filter.state C -> wavefront -> result (Filter.state C * wavefront))
    (cfg : Filter.config) (st : Filter.state C) (wf : wavefront) :=
  meth cfg st wf.

(** The bodies of [forward] and [backward] (lines 115-149). *)
Definition forward_body (cfg : Filter.config) (st : Filter.state C) (wf : wavefront) :
    result (Filter.state C * wavefront) :=
  match Filter.forward omega cfg st (electric_field wf) with
  | Ok (st', filtered) => Ok (st', Wavefront filtered (wavelength wf) (input_stokes_vector wf))
  | Err e => Err e
  end.

Definition backward_body (cfg : Filter.config) (st : Filter.state C) (wf : wavefront) :
    result (Filter.state C * wavefront) :=
  match Filter.backward omega cfg st (electric_field wf) with
  | Ok (st', filtered) => Ok (st', Wavefront filtered (wavelength wf) (input_stokes_vector wf))
  | Err e => Err e
  end.

Definition forward := agnostic_call forward_body.
Definition backward := agnostic_call backward_body.

End ASP.
End ASP.

(** ** Observations on results *)
Module Obs.
Section Obs.
Variable C : numClosedFieldType.

(** The entry at flat index [p] of the field returned by an operation. *)
Definition out_val (S : Type) (r : result (S * field C)) (p : nat) : option C :=
  match r with Ok (_, f) => Some (f_vals f p) | Err _ => None end.

(** The field returned by an operation, without the new state. *)
Definition out_field (S : Type) (r : result (S * field C)) : result (field C) :=
  match r with Ok (_, f) => Ok f | Err e => Err e end.

(** The standard inner product of two fields over the entries of the first
    one's [shaped] layout: [sum_p u_p * conj(v_p)]. *)
Definition inner (u v : field C) : C :=
  vdot (numel (shaped_shape u)) (f_vals u) (f_vals v).

(** A map on flat arrays that respects entrywise equality and is linear
    entry by entry. *)
Definition linear_map (Phi : array C -> array C) : Prop :=
  (forall x y, x =1 y -> Phi x =1 Phi y) /\
  (forall a b x y, Phi (fun q => a * x q + b * y q) =1 (fun q => a * Phi x q + b * Phi y q)).

End Obs.
End Obs.

Import Obs.

(** ** Concrete inputs: algebraic numbers, rationals, small grids *)
Module Concrete.

(** Twiddle factors of length-1 and length-2 transforms ([exp(-2 pi i / n)]
    is 1 for n = 1 and -1 for n = 2); other lengths are not used below. *)
Definition omega0 (n : nat) : algC := if n == 2%N then -1 else 1.

Definition ngs0 (_ : seq rat) (_ : seq nat) : array algC := fun _ => 1.
Definition phase0 (_ : rat) : algC := 1.
Definition fsc0 (g : grid rat) : seq (seq rat) := separated_coords g.
Definition tan0 (x : rat) : rat := x.
Definition sin0 (x : rat) : rat := x.

(** A regular Cartesian 2x2 grid of unit spacing. *)
Definition grid2 : grid rat :=
  Grid true true [:: 2; 2] [:: 1; 1] [:: [:: 0; 1]; [:: 0; 1]].

(** The same samples, flagged as not regular. *)
Definition grid2_irregular : grid rat :=
  Grid false true [:: 2; 2] [:: 1; 1] [:: [:: 0; 1]; [:: 0; 1]].

(** A 2x2 input grid zero-padded to 4x4 (q = 2), cutout starting at 1. *)
Definition cfg_pad : Filter.config := Filter.Config [:: 2; 2] [:: 4; 4] (Some [:: 1; 1]).

(** A one-point grid without padding. *)
Definition cfg_one : Filter.config := Filter.Config [:: 1] [:: 1] None.

Definition tf_const (sh : seq nat) (c : algC) : Filter.transfer algC :=
  Filter.TFField (NDArr complex128 sh (fun _ => c)).

Definition vfield (d : dtype) (tsh gsh : seq nat) (c : algC) : field algC :=
  Field d tsh gsh (fun _ => c).

(** A one-point [FourierFilter] with transfer function 1, and a complex
    field on its grid. *)
Definition st_one : Filter.state algC := Filter.init (tf_const [:: 1%N] 1).
Definition u_one : field algC := vfield complex128 [::] [:: 1%N] 1.


(** A shift along x on the 2x2 grid, and a field on that grid. *)
Definition shift_st : Shift.state rat algC := Shift.init ngs0 [:: 2; 2]%N [:: 1; 0].
Definition u_22 : field algC := vfield complex128 [::] [:: 2; 2]%N 1.

(** A shear along x by 1 on the 2x2 grid. *)
Definition shear_st : Shear.state rat algC :=
  Shear.State grid2 0 1 (Shear.make_filter phase0 fsc0 grid2 0 1).

(** A scalar wavefront on the one-point grid. *)
Definition wf_one (c : algC) : ASP.wavefront rat algC :=
  ASP.Wavefront (vfield complex128 [::] [:: 1%N] c) 1 None.


End Concrete.

Import Concrete.

(** * Lemmas *)

(** ** Adjoint structure of a transform, a frequency-domain map and the
    inverse transform *)
Module Adjoint.
Section Adjoint.
Variable C : numClosedFieldType.
Implicit Types (x y z u : array C) (K : nat -> nat -> C).

Lemma vdot_kinv_l n K m z y :
  vdot n (kinv n K m z) y = m%:R^-1 * vdot n z (ktrans n K y).
Proof.
rewrite /vdot /kinv /ktrans.
transitivity (m%:R^-1 * \sum_(j < n) \sum_(k < n) (K k j)^* * z k * (y j)^*).
  by rewrite mulr_sumr; apply: eq_bigr => j _; rewrite -mulrA mulr_suml.
rewrite exchange_big /=; congr (_ * _); apply: eq_bigr => k _.
rewrite rmorph_sum /= mulr_sumr; apply: eq_bigr => j _.
by rewrite rmorphM /= [_ * z k]mulrC -mulrA.
Qed.

Lemma vdot_ktrans_l n K x u :
  vdot n (ktrans n K x) u = vdot n x (fun j => \sum_(k < n) (K k j)^* * u k).
Proof.
rewrite /vdot /ktrans.
transitivity (\sum_(k < n) \sum_(j < n) K k j * x j * (u k)^*).
  by apply: eq_bigr => k _; rewrite mulr_suml.
rewrite exchange_big /=; apply: eq_bigr => j _.
rewrite rmorph_sum /= mulr_sumr; apply: eq_bigr => k _.
by rewrite rmorphM /= conjCK [K k j * _]mulrC -mulrA.
Qed.

Lemma vdot_kinv_r n K m x w :
  vdot n x (kinv n K m w) =
  m%:R^-1 * vdot n x (fun j => \sum_(k < n) (K k j)^* * w k).
Proof.
rewrite /vdot /kinv mulr_sumr; apply: eq_bigr => j _.
by rewrite rmorphM /= fmorphV /= conjC_nat mulrCA.
Qed.

(** If [Phi'] is the adjoint of [Phi], then [kinv K2 m (Phi (ktrans K1 _))]
    has the adjoint [kinv K1 m (Phi' (ktrans K2 _))], whatever the kernels. *)
Lemma filter_adjoint n1 n2 K1 K2 m (Phi Phi' : array C -> array C) :
  (forall a b, vdot n2 (Phi a) b = vdot n1 a (Phi' b)) ->
  forall x y,
    vdot n2 (kinv n2 K2 m (Phi (ktrans n1 K1 x))) y =
    vdot n1 x (kinv n1 K1 m (Phi' (ktrans n2 K2 y))).
Proof.
move=> HPhi x y.
by rewrite vdot_kinv_l HPhi vdot_ktrans_l vdot_kinv_r.
Qed.

End Adjoint.
End Adjoint.

(** ** The filter's output and its state *)
Module FilterFacts.

(** The field returned by [_operation] depends on the state only through
    the cached transfer function and scratch buffer after
    [_compute_functions]. *)
Lemma operation_out_field (C : numClosedFieldType) (om : nat -> C) cfg
    (st : Filter.state C) u adjoint :
  out_field (Filter.operation om cfg st u adjoint) =
  Filter.filter_field om cfg (Filter._transfer_function (Filter.compute_functions cfg st u))
    (Filter.internal_array (Filter.compute_functions cfg st u)) u adjoint.
Proof. by rewrite /Filter.operation; case: Filter.filter_field. Qed.

(** On a single point the transform and its inverse are the identity. *)
Lemma fft_point (om : nat -> algC) (x : array algC) :
  fftn om [:: 1%N] [:: 0%N] x 0%N = x 0%N /\ ifftn om [:: 1%N] [:: 0%N] x 0%N = x 0%N.
Proof.
split; rewrite /fftn /ifftn /ktrans /kinv big_ord1 /fft_kernel big_seq1 /=;
  [by rewrite expr0 !mul1r | by rewrite big_seq1 /= expr0 mul1r invr1 conjC1 !mul1r].
Qed.

End FilterFacts.

Import FilterFacts.

(** ** [FourierShift]: the active axes *)
Module ShiftFacts.

Lemma flatnonzero_nil (R : realFieldType) (s : seq R) :
  all (fun x => x == 0) s -> Shift.flatnonzero s = [::].
Proof.
move=> H; rewrite /Shift.flatnonzero -(filter_pred0 (iota 0 (size s))).
apply: eq_in_filter => i; rewrite mem_iota add0n => /andP[_ Hi] /=.
by rewrite (eqP (allP H _ (mem_nth 0 Hi))) eqxx.
Qed.

End ShiftFacts.

Import ShiftFacts.

(** ** [AngularSpectrumPropagator]: the largest extent and the criterion *)
Module ASPFacts.

(** [foldl max] returns one of the values and bounds all of them. *)
Lemma foldl_max_spec (R : realFieldType) (x : R) (s : seq R) :
  foldl Num.max x s \in x :: s /\ all (fun e => e <= foldl Num.max x s) (x :: s).
Proof.
elim: s x => [|y s IH] x /=; first by rewrite inE eqxx lexx.
case: (IH (Num.max x y)) => Hm /andP[Hxy Ha]; split.
  move: Hm; rewrite inE => /orP[/eqP->|Hm]; last by rewrite !inE Hm !orbT.
  by rewrite /Order.max; case: ifP => _; rewrite !inE eqxx ?orbT.
move: Hxy; rewrite ge_max => /andP[-> ->] /=; exact: Ha.
Qed.

(** On a grid with positive dimensions and spacings, [L_max] is the
    largest extent [dims * delta] and is positive. *)
Lemma L_max_spec (R : realFieldType) (g : grid R) :
  size (dims g) = size (delta g) -> (0 < size (dims g))%N ->
  all (fun n => 0 < n)%N (dims g) -> all (fun d => 0 < d) (delta g) ->
  exists Lm, ASP.L_max g = Ok Lm /\ 0 < Lm /\
    Lm \in [seq (m.1)%:R * m.2 | m <- zip (dims g) (delta g)] /\
    all (fun e => e <= Lm) [seq (m.1)%:R * m.2 | m <- zip (dims g) (delta g)].
Proof.
rewrite /ASP.L_max; case: g => ir ic [|n ns] [|d ds] sc //= [Hs] _ /andP[Hn _] /andP[Hd _].
case: (foldl_max_spec (n%:R * d) [seq (m.1)%:R * m.2 | m <- zip ns ds]) => Hm Ha.
exists (foldl Num.max (n%:R * d) [seq (m.1)%:R * m.2 | m <- zip ns ds]); do !split => //.
move: Ha => /andP[H1 _]; apply: lt_le_trans H1; by rewrite mulr_gt0 // ltr0n.
Qed.

(** With [L_max > 0], the test [delta < wavelength * distance / L_max]
    is [delta * L_max < wavelength * distance]. *)
Lemma make_instance_Ok (R : realFieldType) p (g : grid R) wl Lm :
  is_regular g -> is_cartesian g -> ASP.L_max g = Ok Lm -> 0 < Lm ->
  ASP.make_instance p g wl =
  if has (fun d => d * Lm < wl * ASP.distance p) (delta g)
  then Ok ASP.ImpulseResponse else Ok ASP.TransferFunctionNative.
Proof.
move=> Hr Hc HL HLm; rewrite /ASP.make_instance Hr Hc HL /=.
by rewrite (eq_has (a2 := fun d => d * Lm < wl * ASP.distance p)) // => d; rewrite ltr_pdivlMr.
Qed.

End ASPFacts.

Import ASPFacts.

(** ** Adjointness of the Fourier operators: the flat index arithmetic,
    the zero-padding and cutout, the transfer functions and the pipeline *)
Module Radix.

Lemma stride_cons0 (x : nat) s : stride (x :: s) 0 = numel s.
Proof. by rewrite /stride /= drop0. Qed.

Lemma stride_consS (x : nat) s a : stride (x :: s) a.+1 = stride s a.
Proof. by []. Qed.

Lemma numel_cons (x : nat) s : numel (x :: s) = (x * numel s)%N.
Proof. by []. Qed.

Lemma numel_split s a : (a < size s)%N ->
  numel s = (numel (take a s) * nth 0%N s a * stride s a)%N.
Proof.
elim: s a => [|x s IH] [|a] //= Ha.
  by rewrite stride_cons0 mul1n.
by rewrite stride_consS (IH a Ha) !mulnA.
Qed.

Lemma coord_cons0 (x : nat) s p : coord (x :: s) 0 p = (p %/ numel s %% x)%N.
Proof. by rewrite /coord stride_cons0. Qed.

Lemma coord_consS (x : nat) s a p : (a < size s)%N ->
  coord (x :: s) a.+1 p = coord s a (p %% numel s).
Proof.
move=> Ha; rewrite /coord stride_consS /=.
set ns := numel s; rewrite {1}(divn_eq p ns).
have -> : (p %/ ns * ns = (p %/ ns * numel (take a s) * nth 0 s a) * stride s a)%N.
  by rewrite /ns (numel_split Ha) !mulnA.
case: (posnP (stride s a)) => [->|Hst]; first by rewrite !divn0.
by rewrite divnMDl // modnMDl.
Qed.

Lemma numel_pos_nth s a : (0 < numel s)%N -> (a < size s)%N -> (0 < nth 0%N s a)%N.
Proof. by move=> Hn Ha; move: Hn; rewrite (numel_split Ha) !muln_gt0 => /andP[/andP[]]. Qed.

Lemma coord_lt s a p : (p < numel s)%N -> (a < size s)%N -> (coord s a p < nth 0%N s a)%N.
Proof.
move=> Hp Ha; rewrite /coord ltn_pmod //; apply: numel_pos_nth Ha.
exact: leq_ltn_trans (leq0n p) Hp.
Qed.

(** A flat index is the sum of its coordinates times the strides. *)
Lemma flat_coord s p : (p < numel s)%N ->
  (\sum_(a < size s) coord s a p * stride s a)%N = p.
Proof.
elim: s p => [|x s IH] p /=.
  by rewrite big_ord0; case: p.
move=> Hp; rewrite big_ord_recl /= coord_cons0 stride_cons0.
have Hn : (0 < numel s)%N by move: Hp; case: (numel s) => //; rewrite muln0.
have Hq : (p %/ numel s < x)%N by rewrite ltn_divLR // mulnC.
rewrite (modn_small Hq).
have -> : (\sum_(i < size s) coord (x :: s) (bump 0 i) p * stride (x :: s) (bump 0 i) =
           \sum_(i < size s) coord s i (p %% numel s) * stride s i)%N.
  by apply: eq_bigr => a _; rewrite /bump /= add1n coord_consS // stride_consS.
by rewrite IH ?ltn_pmod // -divn_eq.
Qed.

(** Digits below the dimensions give a flat index within the array whose
    coordinates are those digits. *)
Lemma coord_flat s (d : nat -> nat) :
  (forall a, (a < size s)%N -> (d a < nth 0%N s a)%N) ->
  (\sum_(a < size s) d a * stride s a < numel s)%N /\
  forall a, (a < size s)%N -> coord s a (\sum_(b < size s) d b * stride s b)%N = d a.
Proof.
elim: s d => [|x s IH] d Hd /=.
  by rewrite big_ord0.
have Hd' : forall a, (a < size s)%N -> (d a.+1 < nth 0%N s a)%N by move=> a Ha; exact: (Hd a.+1).
case: (IH _ Hd') => Hlt Hco.
have Hn : (0 < numel s)%N by exact: leq_ltn_trans (leq0n _) Hlt.
have Hsplit : (\sum_(b < (size s).+1) d b * stride (x :: s) b =
               d 0%N * numel s + \sum_(b < size s) d b.+1 * stride s b)%N.
  by rewrite big_ord_recl stride_cons0.
rewrite Hsplit; split.
  apply: (@leq_trans ((d 0%N).+1 * numel s)).
    by rewrite mulSn addnC ltn_add2r.
  by rewrite leq_mul2r (Hd 0%N) ?orbT.
case=> [|a] Ha.
  by rewrite coord_cons0 divnMDl // divn_small // addn0 modn_small // (Hd 0%N).
by rewrite coord_consS // modnMDl modn_small // Hco.
Qed.

Lemma flat_coord_n s n p : n = size s -> (p < numel s)%N ->
  (\sum_(a < n) coord s a p * stride s a)%N = p.
Proof. by move=> ->; exact: flat_coord. Qed.

Lemma coord_flat_n s n (d : nat -> nat) : n = size s ->
  (forall a, (a < size s)%N -> (d a < nth 0%N s a)%N) ->
  (\sum_(a < n) d a * stride s a < numel s)%N /\
  forall a, (a < size s)%N -> coord s a (\sum_(b < n) d b * stride s b)%N = d a.
Proof. by move=> ->; exact: coord_flat. Qed.

End Radix.

Module Sums.
Section Sums.
Variable C : numClosedFieldType.

Lemma sum_bij (n m : nat) (P : pred nat) (phi psi : nat -> nat) (F : nat -> C) :
  (forall i, (i < n)%N -> [/\ (phi i < m)%N, P (phi i) & psi (phi i) = i]) ->
  (forall p, (p < m)%N -> P p -> (psi p < n)%N /\ phi (psi p) = p) ->
  \sum_(i < n) F (phi i) = \sum_(p < m | P p) F p.
Proof.
move=> H1 H2.
rewrite -(big_mkord xpredT (fun i => F (phi i))) -big_mkord /index_iota !subn0.
rewrite -[RHS]big_filter -(big_map phi xpredT F).
apply: perm_big; apply: uniq_perm.
- rewrite map_inj_in_uniq ?iota_uniq // => i j; rewrite !mem_iota !add0n => /andP[_ Hi] /andP[_ Hj] E.
  by case: (H1 i Hi) => _ _ <-; case: (H1 j Hj) => _ _ <-; rewrite E.
- by rewrite filter_uniq ?iota_uniq.
move=> x; rewrite mem_filter mem_iota add0n /=; apply/mapP/andP => [[i Hi ->]|[HP Hx]].
  by move: Hi; rewrite mem_iota add0n => /andP[_ /H1[]].
by case: (H2 x Hx HP) => Hn Hx'; exists (psi x); rewrite ?mem_iota ?add0n ?Hn // Hx'.
Qed.

Lemma vdot_conj n (x y : array C) : vdot n x y = (vdot n y x)^*.
Proof.
rewrite /vdot rmorph_sum; apply: eq_bigr => i _.
by rewrite rmorphM /= conjCK mulrC.
Qed.

End Sums.
End Sums.

Import Radix Sums.

Module CutPad.
Section CutPad.
Variable C : numClosedFieldType.
Variables (T S ns offs : seq nat).
Hypothesis Hoffs : size offs = size S.
Hypothesis Hns : size ns = size S.
Hypothesis Hfit : forall j, (j < size S)%N -> (nth 0 offs j + nth 0 ns j <= nth 0 S j)%N.

Local Notation sh := (T ++ S).
Local Notation rsh := (T ++ ns).
Local Notation start := (Filter.slice_start (size T) offs).

Lemma size_rsh : size rsh = size sh.
Proof. by rewrite !size_cat Hns. Qed.

Lemma axis_cases a : (a < size sh)%N ->
  [/\ (a < size T)%N, nth 0 sh a = nth 0 rsh a & start a = 0%N] \/
  (exists j, [/\ a = (size T + j)%N, (j < size S)%N, nth 0 sh a = nth 0 S j,
                 nth 0 rsh a = nth 0 ns j & start a = nth 0 offs j]).
Proof.
move=> Ha; rewrite /Filter.slice_start !nth_cat; case: ltnP => Hk; [by left | right].
exists (a - size T)%N; rewrite subnKC //; split => //.
by rewrite -(ltn_add2l (size T)) subnKC // -size_cat.
Qed.

Lemma cut_pad_adjoint (I v : array C) :
  vdot (numel rsh) (Filter.cut sh (size T) offs rsh I) v =
  vdot (numel sh) I (Filter.pad sh (size T) offs ns rsh v).
Proof.
rewrite /vdot /Filter.cut /Filter.pad size_rsh subnn.
set phi := fun i => (\sum_(a < size sh) (coord rsh a i + start a) * stride sh a)%N.
set psi := fun p => (\sum_(a < size sh)
   (if nth 0%N rsh a == 1%N then 0%N else coord sh (0 + a) p - start (0 + a)) * stride rsh a)%N.
set R := Filter.in_region sh (size T) offs ns.
have Hphi : forall i, (i < numel rsh)%N -> [/\ (phi i < numel sh)%N, R (phi i) & psi (phi i) = i].
  move=> i Hi.
  have Hd : forall a, (a < size sh)%N -> (coord rsh a i + start a < nth 0 sh a)%N.
    move=> a Ha; case: (axis_cases Ha) => [[Hk -> ->]|[j [Ea Hj -> Er ->]]].
      by rewrite addn0 coord_lt // size_rsh.
    by apply: leq_trans (Hfit Hj); rewrite addnC ltn_add2l -Er coord_lt // size_rsh.
  case: (coord_flat_n (d := fun a => coord rsh a i + start a)%N erefl Hd) => Hlt Hco.
  split => //.
    apply/allP => j; rewrite mem_iota add0n Hns => /andP[_ Hj].
    have Ha : (size T + j < size sh)%N by rewrite size_cat ltn_add2l.
    rewrite /phi Hco //; case: (axis_cases Ha) => [[]|[j' [Ea Hj' _ Er ->]]].
      by rewrite ltnNge leq_addr.
    move: Ea => /eqP; rewrite eqn_add2l => /eqP Ej; subst j'.
    by rewrite leq_addl /= addnC ltn_add2l -Er coord_lt // size_rsh.
  rewrite /psi -[RHS](@flat_coord_n rsh (size sh) i (esym size_rsh) Hi).
  apply: eq_bigr => a _; rewrite !add0n /phi Hco // addnK.
  case: eqP => // E; move: (@coord_lt rsh a i Hi); rewrite size_rsh (ltn_ord a) E.
  by move=> /(_ isT); case: (coord rsh a i).
have Hpsi : forall p, (p < numel sh)%N -> R p -> (psi p < numel rsh)%N /\ phi (psi p) = p.
  move=> p Hp /allP HR.
  have He : forall a, (a < size sh)%N ->
      [/\ (if nth 0%N rsh a == 1%N then 0%N else coord sh a p - start a)%N = (coord sh a p - start a)%N,
          (coord sh a p - start a < nth 0 rsh a)%N & (start a <= coord sh a p)%N].
    move=> a Ha; have Hc := coord_lt Hp Ha.
    case: (axis_cases Ha) => [[Hk Er ->]|[j [Ea Hj Es Er ->]]].
      rewrite subn0 -Er; split => //; case: eqP => // E; move: Hc; rewrite E.
      by case: (coord sh a p).
    have /andP[H1 H2] : (nth 0 offs j <= coord sh a p < nth 0 offs j + nth 0 ns j)%N.
      by rewrite Ea; apply: HR; rewrite mem_iota add0n Hns.
    have H3 : (coord sh a p - nth 0 offs j < nth 0 ns j)%N by rewrite ltn_subLR.
    rewrite Er; split => //; case: eqP => // E; move: H3; rewrite E.
    by case: (coord sh a p - nth 0 offs j)%N.
  have Hd : forall a, (a < size rsh)%N -> (coord sh a p - start a < nth 0 rsh a)%N.
    by move=> a; rewrite size_rsh => Ha; case: (He a Ha).
  have Hpsi_eq : psi p = (\sum_(a < size sh) (coord sh a p - start a) * stride rsh a)%N.
    by apply: eq_bigr => a _; rewrite !add0n; case: (He a (ltn_ord a)) => ->.
  case: (coord_flat_n (d := fun a => coord sh a p - start a)%N (esym size_rsh) Hd) => Hlt Hco.
  rewrite Hpsi_eq; split => //.
  rewrite /phi -[RHS](@flat_coord_n sh (size sh) p erefl Hp).
  apply: eq_bigr => a _; rewrite Hco ?size_rsh // subnK //.
  by case: (He a (ltn_ord a)).
rewrite [RHS](bigID (fun p : 'I__ => R p)) /=.
have Hz : \sum_(p < numel sh | ~~ R p) I p * (if R p then v (psi p) else 0)^* = 0.
  by apply: big1 => p /negbTE ->; rewrite conjC0 mulr0.
rewrite Hz addr0.
rewrite [RHS](eq_bigr (fun p : 'I__ => I p * (v (psi p))^* )); first by move=> p ->.
rewrite -(sum_bij (fun p => I p * (v (psi p))^* ) Hphi Hpsi).
by apply: eq_bigr => i _; case: (Hphi i (ltn_ord i)) => _ _ ->.
Qed.

End CutPad.
End CutPad.

Import CutPad.

Module Transfer.
Section Transfer.
Variable C : numClosedFieldType.

Lemma apply_scalar_adjoint n fsh tsh (H a b : array C) :
  vdot n (Filter.apply_scalar fsh tsh H false a) b =
  vdot n a (Filter.apply_scalar fsh tsh H true b).
Proof.
rewrite /vdot; apply: eq_bigr => p _; rewrite /Filter.apply_scalar /=.
by rewrite rmorphM /= conjCK [(b p)^* * _]mulrC mulrA.
Qed.

Lemma sum_mul_split (P N : nat) (F : nat -> C) :
  \sum_(o < P * N) F o = \sum_(i < P) \sum_(n < N) F (i * N + n)%N.
Proof.
elim: P F => [|P IH] F; first by rewrite mul0n !big_ord0.
rewrite mulSn big_split_ord big_ord_recl /=; congr (_ + _).
rewrite (IH (fun o => F (N + o)%N)); apply: eq_bigr => i _; apply: eq_bigr => n _.
by rewrite /bump /= add1n mulSn addnA.
Qed.

Lemma divmod_idx (i n N : nat) : (n < N)%N -> ((i * N + n) %/ N = i /\ (i * N + n) %% N = n)%N.
Proof.
move=> Hn; have HN : (0 < N)%N by exact: leq_ltn_trans (leq0n n) Hn.
by rewrite divnMDl // divn_small // addn0 modnMDl modn_small.
Qed.

Lemma numel_cat (s t : seq nat) : numel (s ++ t) = (numel s * numel t)%N.
Proof.
elim: s => [|x s IH]; first by rewrite /= mul1n.
by rewrite cat_cons !numel_cons IH mulnA.
Qed.

Lemma lt_idx2 (r n K N : nat) : (r < K)%N -> (n < N)%N -> (r * N + n < K * N)%N.
Proof.
move=> Hr Hn; apply: (@leq_trans (r.+1 * N)); last by rewrite leq_mul2r Hr orbT.
by rewrite mulSn addnC ltn_add2r.
Qed.

Lemma idx3 (i r n K N : nat) : (r < K)%N -> (n < N)%N ->
  [/\ (((i * K + r) * N + n) %/ (K * N) = i)%N, (((i * K + r) * N + n) %% N = n)%N
    & ((((i * K + r) * N + n) %/ N) %% K = r)%N].
Proof.
move=> Hr Hn; have E : ((i * K + r) * N + n = i * (K * N) + (r * N + n))%N.
  by rewrite mulnDl mulnA addnA.
case: (divmod_idx (i * K + r) Hn) => -> ->; split => //.
  by rewrite E; case: (divmod_idx i (lt_idx2 Hr Hn)).
by case: (divmod_idx i Hr).
Qed.

Lemma sum3 (Q K N : nat) (F : nat -> C) :
  \sum_(o < Q * (K * N)) F o = \sum_(i < Q) \sum_(r < K) \sum_(n < N) F ((i * K + r) * N + n)%N.
Proof.
rewrite sum_mul_split; apply: eq_bigr => i _; rewrite (sum_mul_split K N (fun m => F (i * (K * N) + m)%N)).
by apply: eq_bigr => r _; apply: eq_bigr => n _; rewrite mulnDl mulnA addnA.
Qed.

Lemma field_dot_adjoint P M K N (A x y : array C) :
  vdot (P * (K * N)) (Filter.field_dot_mm M K N A x) y =
  vdot (M * (K * N)) x (Filter.field_dot_mm P K N (Filter.field_conjugate_transpose P M N A) y).
Proof.
rewrite /vdot (sum3 P K N (fun o => Filter.field_dot_mm M K N A x o * (y o)^* )).
rewrite (sum3 M K N (fun o => x o * (Filter.field_dot_mm P K N (Filter.field_conjugate_transpose P M N A) y o)^* )).
rewrite /Filter.field_dot_mm /Filter.field_conjugate_transpose.
transitivity (\sum_(i < P) \sum_(r < K) \sum_(n < N) \sum_(j < M)
   A ((i * M + j) * N + n)%N * x ((j * K + r) * N + n)%N * (y ((i * K + r) * N + n)%N)^*).
  apply: eq_bigr => i _; apply: eq_bigr => r _; apply: eq_bigr => n _; rewrite mulr_suml.
  by case: (idx3 i (ltn_ord r) (ltn_ord n)) => -> -> ->.
transitivity (\sum_(j < M) \sum_(r < K) \sum_(n < N) \sum_(i < P)
   A ((i * M + j) * N + n)%N * x ((j * K + r) * N + n)%N * (y ((i * K + r) * N + n)%N)^*).
  rewrite exchange_big /= [RHS]exchange_big /=; apply: eq_bigr => r _.
  rewrite exchange_big /= [RHS]exchange_big /=; apply: eq_bigr => n _.
  by rewrite exchange_big.
apply: eq_bigr => j _; apply: eq_bigr => r _; apply: eq_bigr => n _.
case: (idx3 j (ltn_ord r) (ltn_ord n)) => -> -> ->.
rewrite rmorph_sum mulr_sumr; apply: eq_bigr => i _.
have Hi : (i < P)%N by [].
case: (divmod_idx (j * P + i) (ltn_ord n)) => -> ->.
case: (divmod_idx j Hi) => -> ->.
by rewrite rmorphM /= conjCK mulrCA mulrA.
Qed.

Lemma pipeline_adjoint n1 n2 m1 m2 (K1 K2 : nat -> nat -> C) m
    (pre1 post1 pre2 post2 Phi Phi' : array C -> array C) x y :
  (forall a b, vdot m1 (post1 a) b = vdot n1 a (pre1 b)) ->
  (forall a b, vdot m2 (post2 a) b = vdot n2 a (pre2 b)) ->
  (forall a b, vdot n2 (Phi a) b = vdot n1 a (Phi' b)) ->
  vdot m2 (post2 (kinv n2 K2 m (Phi (ktrans n1 K1 (pre1 x))))) y =
  vdot m1 x (post1 (kinv n1 K1 m (Phi' (ktrans n2 K2 (pre2 y))))).
Proof.
move=> H1 H2 HPhi.
rewrite H2 (Adjoint.filter_adjoint K1 K2 m HPhi).
by rewrite vdot_conj -H1 -vdot_conj.
Qed.

Lemma prod_axes (T S : seq nat) :
  (\prod_(a <- iota (size T) (size S)) nth 0%N (T ++ S) a = \prod_(a <- S) a)%N.
Proof.
have -> : iota (size T) (size S) = map (addn (size T)) (iota 0 (size S))
  by rewrite -iotaDl addn0.
rewrite big_map.
rewrite [RHS](big_nth 0%N) /index_iota subn0; apply: eq_bigr => a _.
by rewrite nth_cat ltnNge leq_addr /= addKn.
Qed.

End Transfer.
End Transfer.

Import Transfer.

Module FilterAdj.
Section FilterAdj.
Variable C : numClosedFieldType.
Variable omega : nat -> C.

Lemma size_cat_sub (T G : seq nat) n : size G = n -> (size (T ++ G) - n = size T)%N.
Proof. by move=> <-; rewrite size_cat addnK. Qed.

Lemma apply_transfer_adj cfg (t : ndarray C) (T : seq nat) (f0 : array C) gsh g :
  Filter.apply_transfer cfg t false (T ++ Filter.internal_shape cfg) f0 = Ok (gsh, g) ->
  exists T' T0 (Phi Phi' : array C -> array C),
    [/\ gsh = T' ++ Filter.internal_shape cfg, g = Phi f0,
        (forall f, Filter.apply_transfer cfg t true (T' ++ Filter.internal_shape cfg) f =
                   Ok (T0 ++ Filter.internal_shape cfg, Phi' f)) &
        (T0 = T -> size T' = size T /\
           forall a b, vdot (numel (T' ++ Filter.internal_shape cfg)) (Phi a) b =
                       vdot (numel (T ++ Filter.internal_shape cfg)) a (Phi' b))].
Proof.
rewrite /Filter.apply_transfer.
set nsh := Filter.internal_shape cfg.
rewrite (size_cat_sub T (erefl (size nsh))) (take_size_cat _ (erefl (size T))) numel_cat eqxx orFb.
case: ifP => Hm.
  case: ifP => // Ht.
  case Et: (take _ (a_shape t)) => [|P [|M [|? ?]]] //.
  case: T => [|R rest].
    case: eqP => // HM [<- <-].
    exists [:: P], [:: M], (Filter.field_dot_ms M (numel nsh) (a_vals t)),
      (Filter.field_dot_mm P (numel [::]) (numel nsh)
         (Filter.field_conjugate_transpose P M (numel nsh) (a_vals t))).
    split => // f.
    rewrite (size_cat_sub [:: P] (erefl (size nsh))) (take_size_cat _ (erefl (size [:: P]))).
    by rewrite numel_cat eqxx /= eqxx.
  case: eqP => // ERM [<- <-]; subst R.
  exists (P :: rest), (M :: rest), (Filter.field_dot_mm M (numel rest) (numel nsh) (a_vals t)),
    (Filter.field_dot_mm P (numel rest) (numel nsh)
       (Filter.field_conjugate_transpose P M (numel nsh) (a_vals t))).
  split => //.
    move=> f; rewrite (size_cat_sub (P :: rest) (erefl (size nsh))).
    rewrite (take_size_cat _ (erefl (size (P :: rest)))).
    by rewrite numel_cat eqxx /= eqxx.
  move=> _; split => // a b; rewrite !numel_cat !numel_cons -!mulnA.
  exact: field_dot_adjoint.
case: ifP => Hb // [<- <-].
exists T, T, (Filter.apply_scalar (T ++ nsh) (a_shape t) (a_vals t) false),
  (Filter.apply_scalar (T ++ nsh) (a_shape t) (a_vals t) true).
split => //.
  by move=> f; rewrite Hb.
by move=> _; split => // a b; rewrite -numel_cat; exact: apply_scalar_adjoint.
Qed.


Lemma broadcastable_refl (s : seq nat) : broadcastable s s.
Proof.
rewrite /broadcastable leqnn subnn drop0 /=.
by elim: s => //= x s ->; rewrite eqxx.
Qed.

Lemma assignable_refl (s : seq nat) : Filter.assignable s s /\ Filter.assign_shape s s = s.
Proof. by rewrite /Filter.assignable /Filter.assign_shape subnn take0 drop0 broadcastable_refl. Qed.

Lemma region_fit (T nsh ish offs : seq nat) :
  size nsh = size ish ->
  (forall j, (j < size ish)%N -> (nth 0 offs j + nth 0 ish j <= nth 0 nsh j)%N) ->
  Filter.region_shape (T ++ nsh) (size T) offs ish = T ++ ish.
Proof.
move=> Hs Hfit; rewrite /Filter.region_shape (take_size_cat _ (erefl (size T))).
rewrite drop_cat ltnNge leq_addr /= addKn drop_oversize ?Hs // cats0.
congr (_ ++ _); rewrite -[RHS](mkseq_nth 0%N ish) /mkseq.
apply/eq_in_map => j; rewrite mem_iota add0n => /andP[_ Hj].
by rewrite nth_cat ltnNge leq_addr /= addKn (minn_idPl (Hfit j Hj)) addKn.
Qed.

Lemma config_okP cfg : Filter.config_ok cfg ->
  size (Filter.internal_shape cfg) = size (Filter.input_shape cfg) /\
  match Filter.cutout cfg with
  | None => Filter.internal_shape cfg = Filter.input_shape cfg
  | Some offs =>
      size offs = size (Filter.input_shape cfg) /\
      forall j, (j < size (Filter.input_shape cfg))%N ->
        (nth 0 offs j + nth 0 (Filter.input_shape cfg) j <= nth 0 (Filter.internal_shape cfg) j)%N
  end.
Proof.
rewrite /Filter.config_ok => /andP[/eqP -> H]; split => //.
case: (Filter.cutout cfg) H => [offs|/eqP //] /andP[/eqP -> /allP H]; split => // j Hj.
by apply: H; rewrite mem_iota add0n.
Qed.

Local Notation pre cfg T x :=
  (match Filter.cutout cfg with
   | None => x
   | Some offs => Filter.pad (T ++ Filter.internal_shape cfg) (size T) offs
                    (Filter.input_shape cfg) (T ++ Filter.input_shape cfg) x
   end).
Local Notation post cfg T x :=
  (match Filter.cutout cfg with
   | None => x
   | Some offs => Filter.cut (T ++ Filter.internal_shape cfg) (size T) offs
                    (T ++ Filter.input_shape cfg) x
   end).
Local Notation fft cfg T x :=
  (fftn omega (T ++ Filter.internal_shape cfg) (iota (size T) (size (Filter.input_shape cfg))) x).
Local Notation ifft cfg T x :=
  (ifftn omega (T ++ Filter.internal_shape cfg) (iota (size T) (size (Filter.input_shape cfg))) x).

Lemma filter_field_inv cfg (t : ndarray C) ia (u W : field C) adj :
  Filter.config_ok cfg -> f_grid_shape u = Filter.input_shape cfg ->
  Filter.buffer_fits cfg ia u ->
  Filter.filter_field omega cfg (Some t) ia u adj = Ok W ->
  exists gsh g,
    [/\ Filter.apply_transfer cfg t adj (f_tensor_shape u ++ Filter.internal_shape cfg)
          (fft cfg (f_tensor_shape u) (pre cfg (f_tensor_shape u) (f_vals u))) = Ok (gsh, g),
        f_tensor_shape W = take (size gsh - size (Filter.internal_shape cfg)) gsh &
        (0 < numel (f_tensor_shape W))%N].
Proof.
case: cfg => ish nsh co Hok; case: (config_okP Hok) => /= Hn Hco.
case: u => du Tu gu uv /= Hg; subst gu.
rewrite /Filter.buffer_fits /Filter.filter_field /tensor_order /shaped_shape /=.
have E1 : (size (Tu ++ nsh) < size ish)%N = false by rewrite size_cat Hn ltnNge leq_addl.
have E2 : (size (Tu ++ nsh) - size ish)%N = size Tu by rewrite size_cat Hn addnK.
case: co Hok Hco => [offs _ [Ho Hfit]|_ Hnsh].
  case: ia => [[d bsh]|] // /eqP ->.
  have E3 : (size (Tu ++ nsh) < size Tu + size ish)%N = false by rewrite size_cat Hn ltnn.
  rewrite E3 region_fit //; case: (assignable_refl (Tu ++ ish)) => -> ->.
  rewrite E1 E2; case: (Filter.apply_transfer _ _ _ _ _) => [[gsh g]|e] //.
  case: ifP => // _; case: ifP => // _; case: ifP => // /andP[Hp _] [<-].
  by exists gsh, g.
subst nsh => _; rewrite E1 E2; case: (Filter.apply_transfer _ _ _ _ _) => [[gsh g]|e] //.
case: ifP => // _; case: ifP => // /andP[Hp _] [<-].
by exists gsh, g.
Qed.

Lemma filter_field_ok cfg (t : ndarray C) ia (u : field C) adj T' g :
  Filter.config_ok cfg -> f_grid_shape u = Filter.input_shape cfg ->
  Filter.buffer_fits cfg ia u ->
  Filter.apply_transfer cfg t adj (f_tensor_shape u ++ Filter.internal_shape cfg)
    (fft cfg (f_tensor_shape u) (pre cfg (f_tensor_shape u) (f_vals u))) =
    Ok (T' ++ Filter.internal_shape cfg, g) ->
  size T' = size (f_tensor_shape u) -> (0 < numel T')%N ->
  Filter.filter_field omega cfg (Some t) ia u adj =
    Ok (Field (complex_dtype (f_dtype u)) T' (Filter.input_shape cfg) (post cfg T' (ifft cfg T' g))).
Proof.
case: cfg => ish nsh co Hok; case: (config_okP Hok) => /= Hn Hco.
case: u => du Tu gu uv /= Hg; subst gu.
rewrite /Filter.buffer_fits /Filter.filter_field /tensor_order /shaped_shape /=.
have E1 : forall T, (size (T ++ nsh) < size ish)%N = false by move=> T; rewrite size_cat Hn ltnNge leq_addl.
have E2 : forall T, (size (T ++ nsh) - size ish)%N = size T by move=> T; rewrite size_cat Hn addnK.
have E4 : (size (T' ++ nsh) - size nsh)%N = size T' by rewrite size_cat addnK.
have E5 : (numel T' %| numel (T' ++ ish))%N by rewrite numel_cat dvdn_mulr.
case: co Hok Hco => [offs _ [Ho Hfit]|_ Hnsh].
  case: ia => [[d bsh]|] // /eqP -> Ef HsT Hp.
  have E3 : forall T, (size (T ++ nsh) < size T + size ish)%N = false by move=> T; rewrite size_cat Hn ltnn.
  rewrite E3 region_fit //; case: (assignable_refl (Tu ++ ish)) => -> ->.
  rewrite E1 E2 Ef E1 -HsT E3 E2 region_fit // E4 (take_size_cat _ (erefl (size T'))).
  by rewrite Hp E5.
subst nsh => _ Ef HsT Hp.
rewrite E1 E2 Ef E1 E2 (take_size_cat _ (erefl (size T'))) Hp E5.
by [].
Qed.


Lemma filter_field_adjoint cfg (t : ndarray C) iau iav (u v U V : field C) :
  Filter.config_ok cfg ->
  f_grid_shape u = Filter.input_shape cfg -> f_grid_shape v = Filter.input_shape cfg ->
  Filter.buffer_fits cfg iau u -> Filter.buffer_fits cfg iav v ->
  Filter.filter_field omega cfg (Some t) iau u false = Ok U ->
  f_tensor_shape v = f_tensor_shape U ->
  Filter.filter_field omega cfg (Some t) iav v true = Ok V ->
  f_tensor_shape V = f_tensor_shape u ->
  inner U v = inner u V.
Proof.
move=> Hok Hgu Hgv Hbu Hbv HU HvU HV HVu.
case: (filter_field_inv Hok Hgu Hbu HU) => gsh [g [Ef HUt HUp]].
case: (apply_transfer_adj Ef) => T' [T0 [Phi [Phi' [Eg Eg' Hbw Hadj]]]]; subst gsh g.
have HUT : f_tensor_shape U = T'.
  by rewrite HUt size_cat addnK (take_size_cat _ (erefl (size T'))).
case: (filter_field_inv Hok Hgv Hbv HV) => gsh2 [g2 [Ef2 HVt HVp]].
move: Ef2; rewrite HvU HUT Hbw => -[Eg2 Eg2']; subst gsh2 g2.
have HT0 : T0 = f_tensor_shape u.
  by rewrite -HVu HVt size_cat addnK (take_size_cat _ (erefl (size T0))).
subst T0; case: (Hadj erefl) => HsT Hadj'.
have HpT : (0 < numel T')%N by rewrite -HUT.
have EU := filter_field_ok Hok Hgu Hbu Ef HsT HpT.
have Ef2 := Hbw (fft cfg T' (pre cfg T' (f_vals v))).
rewrite -HUT -HvU in Ef2.
have HsT' : size (f_tensor_shape u) = size (f_tensor_shape v) by rewrite HvU HUT.
have HpV : (0 < numel (f_tensor_shape u))%N by rewrite -HVu.
have EV := filter_field_ok Hok Hgv Hbv Ef2 HsT' HpV.
rewrite HU in EU; rewrite HV in EV; case: EU => ->; case: EV => ->.
rewrite /inner /shaped_shape /= Hgu HvU HUT.
clear -Hadj' Hok; move: Hadj' Hok; case: cfg => ish nsh co /= Hadj' Hok; case: (config_okP Hok) => /= Hn Hco.
rewrite /fftn /ifftn -!Hn !prod_axes.
case: co Hok Hco => [offs _ [Ho Hfit]|_ Hnsh].
  have Hfit' : forall j, (j < size nsh)%N ->
      (nth 0 offs j + nth 0 ish j <= nth 0 nsh j)%N by rewrite Hn.
  rewrite (cut_pad_adjoint T' (esym Hn) Hfit') (Adjoint.filter_adjoint _ _ _ Hadj').
  by rewrite vdot_conj -(cut_pad_adjoint (f_tensor_shape u) (esym Hn) Hfit') -vdot_conj.

subst nsh; exact: (Adjoint.filter_adjoint _ _ _ Hadj').
Qed.

Lemma filter_field_tf cfg (t t' : ndarray C) ia (u : field C) adj :
  a_shape t = a_shape t' -> a_vals t = a_vals t' ->
  Filter.filter_field omega cfg (Some t) ia u adj = Filter.filter_field omega cfg (Some t') ia u adj.
Proof. by case: t => d sh H; case: t' => d' sh' H' /= <- <-. Qed.

Lemma computed_tf_cast cfg (tf : Filter.transfer C) d d' :
  is_complex_dtype d = is_complex_dtype d' ->
  a_shape (Filter.computed_tf cfg tf d) = a_shape (Filter.computed_tf cfg tf d') /\
  a_vals (Filter.computed_tf cfg tf d) = a_vals (Filter.computed_tf cfg tf d').
Proof. by rewrite /Filter.computed_tf /astype /= => ->. Qed.

Lemma compute_tf cfg (st : Filter.state C) (u : field C) :
  exists t, [/\ Filter._transfer_function (Filter.compute_functions cfg st u) = Some t,
                a_dtype t = f_dtype u &
                t = Filter.computed_tf cfg (Filter.transfer_function st) (f_dtype u) \/
                Filter._transfer_function st = Some t].
Proof.
rewrite /Filter.compute_functions /=; case: ifP => [_|]; first by exists (Filter.computed_tf cfg (Filter.transfer_function st) (f_dtype u)); split => //; left.
rewrite /Filter.tf_stale; case: (Filter._transfer_function st) => // t /negbFE /eqP Hd.
by exists t; split => //; right.
Qed.

Lemma compute_keep cfg (st : Filter.state C) (u : field C) t :
  Filter._transfer_function st = Some t -> a_dtype t = f_dtype u ->
  Filter._transfer_function (Filter.compute_functions cfg st u) = Some t.
Proof. by move=> Ht Hd; rewrite /Filter.compute_functions /Filter.tf_stale /= Ht Hd eqxx. Qed.

Lemma filter_ops_adjoint cfg (st0 st1 st2 : Filter.state C) (u v U V : field C) :
  Filter.config_ok cfg ->
  f_grid_shape u = Filter.input_shape cfg -> f_grid_shape v = Filter.input_shape cfg ->
  is_complex_dtype (f_dtype v) = is_complex_dtype (f_dtype u) ->
  (f_dtype v = f_dtype u \/
   forall t, Filter._transfer_function st0 = Some t ->
             t = Filter.computed_tf cfg (Filter.transfer_function st0) (a_dtype t)) ->
  Filter.buffer_fits cfg (Filter.internal_array (Filter.compute_functions cfg st0 u)) u ->
  Filter.buffer_fits cfg (Filter.internal_array (Filter.compute_functions cfg st1 v)) v ->
  Filter.forward omega cfg st0 u = Ok (st1, U) ->
  f_tensor_shape v = f_tensor_shape U ->
  Filter.backward omega cfg st1 v = Ok (st2, V) ->
  f_tensor_shape V = f_tensor_shape u ->
  inner U v = inner u V.
Proof.
move=> Hok Hgu Hgv Hcx Hfr Hbu Hbv.
rewrite /Filter.forward /Filter.operation.
case: (compute_tf cfg st0 u) => t1 [Ht1 Hd1 Ho1]; rewrite Ht1.
case Eu: (Filter.filter_field _ _ _ _ _ _) => [U'|e] // [Est1 EU]; subst U' st1.
move=> HT; rewrite /Filter.backward /Filter.operation.
case: (compute_tf cfg (Filter.compute_functions cfg st0 u) v) => t2 [Ht2 Hd2 Ho2]; rewrite Ht2.
have [Hs Hv] : a_shape t2 = a_shape t1 /\ a_vals t2 = a_vals t1.
  case: Hfr => [Hdv|Hfr].
    have Ht1' := compute_keep cfg Ht1 (etrans Hd1 (esym Hdv)).
    by move: Ht2; rewrite Ht1' => -[->].
  have E1 : t1 = Filter.computed_tf cfg (Filter.transfer_function st0) (f_dtype u).
    by case: Ho1 => // /Hfr ->; rewrite /Filter.computed_tf /astype /= Hd1.
  case: Ho2 => [->|]; last by rewrite Ht1 => -[->].
  by rewrite E1 /=; exact: computed_tf_cast.
rewrite (filter_field_tf _ _ _ _ Hs Hv).
case Ev: (Filter.filter_field _ _ _ _ _ _) => [V'|e] // [_ <-] HV.
exact: (filter_field_adjoint Hok Hgu Hgv Hbu Hbv Eu HT Ev HV).
Qed.

Lemma shift_ops_adjoint (R : realFieldType) (st : Shift.state R C) (u v U V : field C) :
  shaped_shape v = shaped_shape u ->
  Shift.forward omega st u = Ok U -> Shift.backward omega st v = Ok V ->
  inner U v = inner u V.
Proof.
rewrite /Shift.forward /Shift.backward /Shift.operation => Hs.
case: (Shift._shift_filter st) => [[bsh sf]|]; last by move=> [<-] [<-].
rewrite Hs; case: ifP => // Hb [<-] [<-].
rewrite /inner /fftn /ifftn /=.
have HP := apply_scalar_adjoint (numel (shaped_shape u)) (shaped_shape u) bsh sf.
exact: (Adjoint.filter_adjoint _ _ _ HP).
Qed.

Lemma shear_ops_adjoint (R : realFieldType) (st : Shear.state R C) (u v U V : field C) :
  shaped_shape v = shaped_shape u ->
  Shear.forward omega st (PField u) = Ok U -> Shear.backward omega st (PField v) = Ok V ->
  inner U v = inner u V.
Proof.
rewrite /Shear.forward /Shear.backward /Shear.operation => Hs.
case: (Shear._filter st) => hsh h; rewrite Hs; case: ifP => // Hb [<-] [<-].
rewrite /inner /fftn /ifftn /=.
have HP := apply_scalar_adjoint (numel (shaped_shape u)) (shaped_shape u) hsh h.
exact: (Adjoint.filter_adjoint _ _ _ HP).
Qed.

End FilterAdj.

(** The one-point transform of the concrete runs. *)
Lemma fft_kernel_one : fft_kernel omega0 [:: 1%N] [:: 0%N] 0 0 = 1.
Proof. by rewrite /fft_kernel big_seq1 /= expr0 mul1r. Qed.

End FilterAdj.

Import FilterAdj.

(** ** [FourierFilter]: cache, shapes and linearity of a call *)
Module FilterMore.
Section FilterMore.
Variable C : numClosedFieldType.
Variable omega : nat -> C.
Local Notation linear_map := (@linear_map C).

Lemma compute_functions_idem cfg (st : Filter.state C) (u : field C) :
  Filter.compute_functions cfg (Filter.compute_functions cfg st u) u =
  Filter.compute_functions cfg st u.
Proof.
rewrite {1}/Filter.compute_functions /=.
have -> : Filter.tf_stale (Filter.compute_functions cfg st u) u = false.
  rewrite /Filter.tf_stale /Filter.compute_functions /=.
  case: ifP => /= [_|]; first by rewrite eqxx.
  by rewrite /Filter.tf_stale; case: (Filter._transfer_function st).
congr Filter.State.
case Hr: (Filter.recompute_internal_array st u) => /=; first by case: ifP.
have -> : Filter.recompute_internal_array (Filter.compute_functions cfg st u) u = false.
  by rewrite -Hr {1}/Filter.recompute_internal_array /Filter.compute_functions /= Hr.
by [].
Qed.


Lemma operation_repeat cfg (st : Filter.state C) (u : field C) adj :
  Filter.operation omega cfg (Filter.compute_functions cfg st u) u adj =
  Filter.operation omega cfg st u adj.
Proof. by rewrite /Filter.operation compute_functions_idem. Qed.

Lemma state_after_call cfg (st : Filter.state C) (u : field C) :
  size (f_grid_shape u) = size (Filter.internal_shape cfg) ->
  exists t sh,
    [/\ Filter._transfer_function (Filter.compute_functions cfg st u) = Some t,
        a_dtype t = f_dtype u,
        Filter.internal_array (Filter.compute_functions cfg st u) = Some (f_dtype u, sh) &
        size sh = (tensor_order u + size (Filter.internal_shape cfg))%N].
Proof.
move=> Hg; case: (compute_tf cfg st u) => t [Ht Hd _]; exists t.
rewrite /Filter.compute_functions /=.
case Hr: (Filter.recompute_internal_array st u).
  by exists (f_tensor_shape u ++ Filter.internal_shape cfg); split => //; rewrite size_cat.
move: Hr; rewrite /Filter.recompute_internal_array.
case: (Filter.internal_array st) => [[d sh]|] //.
move=> /negbT /norP[/negbNE/eqP Hs /norP[/negbNE/eqP Hdd _]]; exists sh; rewrite Hdd; split => //.
by rewrite Hs Hg addnC.
Qed.





Lemma linear_comp (Phi Psi : array C -> array C) : linear_map Phi -> linear_map Psi -> linear_map (fun x => Phi (Psi x)).
Proof.
move=> [E1 L1] [E2 L2]; split=> [x y Hxy|a b x y] q; first by apply: E1; apply: E2.
by rewrite -L1; apply: E1; apply: L2.
Qed.

Lemma ktrans_linear n K : linear_map (ktrans n K).
Proof.
split=> [x y Hxy|a b x y] q; rewrite /ktrans; first by apply: eq_bigr => j _; rewrite Hxy.
rewrite !mulr_sumr -big_split /=; apply: eq_bigr => j _.
by rewrite mulrDr !mulrA ![_ * K q j]mulrC.
Qed.

Lemma kinv_linear n K m : linear_map (kinv n K m).
Proof.
split=> [x y Hxy|a b x y] q; rewrite /kinv.
  by congr (_ * _); apply: eq_bigr => j _; rewrite Hxy.
rewrite [a * _]mulrCA [b * _]mulrCA -mulrDr; congr (_ * _).
rewrite !mulr_sumr -big_split /=; apply: eq_bigr => j _.
by rewrite mulrDr !mulrA ![_ * (K j q)^*]mulrC.
Qed.










End FilterMore.
End FilterMore.

Import FilterMore.

(** ** The operators: states after a call, shapes, linearity *)
Module OpFacts.

Lemma op_state (C : numClosedFieldType) (om : nat -> C) cfg (st st1 : Filter.state C) u adj U :
  Filter.operation om cfg st u adj = Ok (st1, U) ->
  st1 = Filter.compute_functions cfg st u /\
  Filter.filter_field om cfg (Filter._transfer_function (Filter.compute_functions cfg st u))
    (Filter.internal_array (Filter.compute_functions cfg st u)) u adj = Ok U.
Proof. by rewrite /Filter.operation; case: Filter.filter_field => // f [<- <-]. Qed.

Lemma mult_linear (C : numClosedFieldType) (s : array C) : linear_map (fun (f : array C) p => f p * s p).
Proof. by split=> [x y Hxy|a b x y] q; [rewrite Hxy | rewrite mulrDl !mulrA]. Qed.

Lemma mult_filter_linear (C : numClosedFieldType) n K m (s x y : array C) (a b : C) q :
  kinv n K m (fun p => ktrans n K (fun q => a * x q + b * y q) p * s p) q =
  a * kinv n K m (fun p => ktrans n K x p * s p) q + b * kinv n K m (fun p => ktrans n K y p * s p) q.
Proof. exact: (linear_comp (kinv_linear n K m) (linear_comp (mult_linear s) (ktrans_linear n K))).2. Qed.

Lemma flatnonzero_opp (R : realFieldType) (s : seq R) :
  Shift.flatnonzero [seq - x | x <- s] = Shift.flatnonzero s.
Proof.
rewrite /Shift.flatnonzero size_map; apply: eq_in_filter => i.
by rewrite mem_iota add0n => /andP[_ Hi]; rewrite (nth_map 0) // oppr_eq0.
Qed.




Lemma shear_out (R : realFieldType) (C : numClosedFieldType) (om : nat -> C) (st : Shear.state R C)
    (v : pyval C) (U : field C) adj :
  Shear.operation om st v adj = Ok U ->
  exists u, v = PField u /\
    [/\ f_tensor_shape U = f_tensor_shape u, f_grid_shape U = f_grid_shape u &
        f_dtype U = complex_dtype (f_dtype u)].
Proof.
case: v => [u|s] //; rewrite /Shear.operation; case: (Shear._filter st) => hsh h.
by case: ifP => // _ [<-]; exists u.
Qed.

Lemma phase0_conj : forall t, phase0 (- t) = (phase0 t)^*.
Proof. by move=> t; rewrite /phase0 conjC1. Qed.

Lemma ngs0_conj : forall (s' : seq rat) sh p, ngs0 [seq - x | x <- s'] sh p = (ngs0 s' sh p)^*.
Proof. by move=> s' sh p; rewrite /ngs0 conjC1. Qed.



End OpFacts.

Import OpFacts.

(** * Claims *)

(** ** Adjointness of forward and backward *)

(** C1 (counterexample): the adjoint identity [<T u, v> = <u, T^H v>] fails
    for a [FourierFilter] on a one-point grid with the transfer function
    [1j] when [u] is real ([float64]) and [v] complex ([complex128]): the
    forward call casts the cached transfer function to [float64], keeping
    its real part [0], so [<T u, v> = 0], while the backward call recomputes
    it as [1j] and [<u, T^H v> = 1j]. *)
Theorem C1_mixed_dtype_not_adjoint :
  ~ (forall cfg (st0 st1 st2 : Filter.state algC) (u v U V : field algC),
       Filter.config_ok cfg ->
       f_grid_shape u = Filter.input_shape cfg -> f_grid_shape v = Filter.input_shape cfg ->
       shaped_shape v = shaped_shape u ->
       Filter.forward omega0 cfg st0 u = Ok (st1, U) ->
       Filter.backward omega0 cfg st1 v = Ok (st2, V) ->
       inner U v = inner u V).
Proof.
move=> H.
have [U [EU HU]] : exists U : field algC,
  Filter.forward omega0 cfg_one (Filter.init (tf_const [:: 1%N] 'i)) (vfield float64 [::] [:: 1%N] 1) =
    Ok (Filter.compute_functions cfg_one (Filter.init (tf_const [:: 1%N] 'i)) (vfield float64 [::] [:: 1%N] 1), U) /\
  inner U (vfield complex128 [::] [:: 1%N] 1) = 0.
  eexists; split; first reflexivity.
  rewrite /inner /vdot /= big_ord1 /ifftn /kinv /= (_ : (1 * 1)%N = 1%N) // big_ord1.
  by rewrite /Filter.apply_scalar /ifftshift /= Re_i !(mulr0, mul0r).
have [V [EV HV]] : exists V : field algC,
  Filter.backward omega0 cfg_one
    (Filter.compute_functions cfg_one (Filter.init (tf_const [:: 1%N] 'i)) (vfield float64 [::] [:: 1%N] 1))
    (vfield complex128 [::] [:: 1%N] 1) =
    Ok (Filter.compute_functions cfg_one
          (Filter.compute_functions cfg_one (Filter.init (tf_const [:: 1%N] 'i)) (vfield float64 [::] [:: 1%N] 1))
          (vfield complex128 [::] [:: 1%N] 1), V) /\
  inner (vfield float64 [::] [:: 1%N] 1) V = 'i.
  eexists; split; first reflexivity.
  rewrite /inner /vdot /= big_ord1 /ifftn /kinv /= (_ : (1 * 1)%N = 1%N) // big_ord1.
  rewrite /Filter.apply_scalar /ifftshift /fftn /ktrans /= (_ : (1 * 1)%N = 1%N) // big_ord1.
  by rewrite subnn big_seq1 fft_kernel_one /= invr1 conjC1 !mul1r conjCK.
have HH : inner U (vfield complex128 [::] [:: 1%N] 1) = inner (vfield float64 [::] [:: 1%N] 1) V.
  by apply: (H cfg_one _ _ _ _ _ _ _ isT _ _ _ EU EV).
by move: HH; rewrite HU HV => /eqP; rewrite eq_sym (negbTE (neq0Ci algC)).
Qed.

(** C1 (amended): [backward] is the adjoint of [forward],
    [<forward(u), v> = <u, backward(v)>], for
    - [FourierFilter], when [u] and [v] lie on the input grid, are both real
      or both complex, and either have the same dtype or start from a cache
      that is empty or was computed from the current [transfer_function];
      [v] has the tensor shape of [forward(u)] and [backward(v)] that of [u]
      (which rules out a scalar [u] under a matrix transfer function); the
      internal grid is the one [FastFourierTransform] builds, and the scratch
      buffer of each call has the tensor shape of that call's field (when
      there is a cutout);
    - [FourierShift], for [u] and [v] of the same shape;
    - [FourierShear], for fields [u] and [v] of the same shape.
    [FourierRotation] returns a tuple and is not covered. *)
Theorem C1_amended_adjoint (R : realFieldType) (C : numClosedFieldType) (omega : nat -> C) :
  (forall cfg (st0 st1 st2 : Filter.state C) (u v U V : field C),
     Filter.config_ok cfg ->
     f_grid_shape u = Filter.input_shape cfg -> f_grid_shape v = Filter.input_shape cfg ->
     is_complex_dtype (f_dtype v) = is_complex_dtype (f_dtype u) ->
     (f_dtype v = f_dtype u \/
      forall t, Filter._transfer_function st0 = Some t ->
                t = Filter.computed_tf cfg (Filter.transfer_function st0) (a_dtype t)) ->
     Filter.buffer_fits cfg (Filter.internal_array (Filter.compute_functions cfg st0 u)) u ->
     Filter.buffer_fits cfg (Filter.internal_array (Filter.compute_functions cfg st1 v)) v ->
     Filter.forward omega cfg st0 u = Ok (st1, U) ->
     f_tensor_shape v = f_tensor_shape U ->
     Filter.backward omega cfg st1 v = Ok (st2, V) ->
     f_tensor_shape V = f_tensor_shape u ->
     inner U v = inner u V) /\
  (forall (st : Shift.state R C) (u v U V : field C),
     shaped_shape v = shaped_shape u ->
     Shift.forward omega st u = Ok U -> Shift.backward omega st v = Ok V ->
     inner U v = inner u V) /\
  (forall (st : Shear.state R C) (u v U V : field C),
     shaped_shape v = shaped_shape u ->
     Shear.forward omega st (PField u) = Ok U -> Shear.backward omega st (PField v) = Ok V ->
     inner U v = inner u V).
Proof.
split; [|split].
- exact: filter_ops_adjoint.
- exact: shift_ops_adjoint.
- exact: shear_ops_adjoint.
Qed.

(** A zero-padded [FourierFilter] (2x2 input, 4x4 internal grid) with the
    transfer function [1j] on complex fields. *)
Lemma C1_witness : exists U V : field algC,
  Filter.forward omega0 cfg_pad (Filter.init (tf_const [:: 4; 4]%N 'i)) (vfield complex128 [::] [:: 2; 2]%N 1) =
    Ok (Filter.compute_functions cfg_pad (Filter.init (tf_const [:: 4; 4]%N 'i)) (vfield complex128 [::] [:: 2; 2]%N 1), U) /\
  Filter.backward omega0 cfg_pad
    (Filter.compute_functions cfg_pad (Filter.init (tf_const [:: 4; 4]%N 'i)) (vfield complex128 [::] [:: 2; 2]%N 1))
    (vfield complex128 [::] [:: 2; 2]%N 'i) =
    Ok (Filter.compute_functions cfg_pad
          (Filter.compute_functions cfg_pad (Filter.init (tf_const [:: 4; 4]%N 'i)) (vfield complex128 [::] [:: 2; 2]%N 1))
          (vfield complex128 [::] [:: 2; 2]%N 'i), V) /\
  inner U (vfield complex128 [::] [:: 2; 2]%N 'i) = inner (vfield complex128 [::] [:: 2; 2]%N 1) V.
Proof.
have [U [EU TU]] : exists U : field algC,
  Filter.forward omega0 cfg_pad (Filter.init (tf_const [:: 4; 4]%N 'i)) (vfield complex128 [::] [:: 2; 2]%N 1) =
    Ok (Filter.compute_functions cfg_pad (Filter.init (tf_const [:: 4; 4]%N 'i)) (vfield complex128 [::] [:: 2; 2]%N 1), U) /\
  f_tensor_shape U = [::].
  by eexists; split; reflexivity.
have [V [EV TV]] : exists V : field algC,
  Filter.backward omega0 cfg_pad
    (Filter.compute_functions cfg_pad (Filter.init (tf_const [:: 4; 4]%N 'i)) (vfield complex128 [::] [:: 2; 2]%N 1))
    (vfield complex128 [::] [:: 2; 2]%N 'i) =
    Ok (Filter.compute_functions cfg_pad
          (Filter.compute_functions cfg_pad (Filter.init (tf_const [:: 4; 4]%N 'i)) (vfield complex128 [::] [:: 2; 2]%N 1))
          (vfield complex128 [::] [:: 2; 2]%N 'i), V) /\
  f_tensor_shape V = [::].
  by eexists; split; reflexivity.
exists U, V; split; [exact: EU | split; [exact: EV |]].
case: (C1_amended_adjoint rat omega0) => HF _.
apply: (HF _ _ _ _ _ _ _ _ _ _ _ _ _ _ _ EU _ EV).
- by [].
- by [].
- by [].
- by [].
- by left.
- by [].
- by [].
- by rewrite TU.
- by rewrite TV.
Defined.

(** ** FourierFilter: the scratch buffer *)

(** C3 (code defect). [internal_array] is reallocated when its leading
    tensor axes EQUAL the field's tensor shape, and kept when they differ:
    after a call with a vector field of 2 components, a call with the same
    tensor shape reallocates, and a call with 3 components keeps the stale
    buffer of 2 components and fails to copy the field into it; after a call
    with 3 components, a field of 1 component is broadcast into the stale
    buffer and the result has 3 components. *)
Theorem C3_stale_internal_array :
  let st1 := Filter.compute_functions cfg_pad (Filter.init (tf_const [:: 4; 4] 1))
               (vfield complex128 [:: 2] [:: 2; 2] 0) in
  let st3 := Filter.compute_functions cfg_pad (Filter.init (tf_const [:: 4; 4] 1))
               (vfield complex128 [:: 3] [:: 2; 2] 0) in
  Filter.internal_array st1 = Some (complex128, [:: 2; 4; 4]) /\
  Filter.recompute_internal_array st1 (vfield complex128 [:: 2] [:: 2; 2] 0) = true /\
  Filter.recompute_internal_array st1 (vfield complex128 [:: 3] [:: 2; 2] 0) = false /\
  Filter.internal_array
    (Filter.compute_functions cfg_pad st1 (vfield complex128 [:: 3] [:: 2; 2] 0)) =
    Some (complex128, [:: 2; 4; 4]) /\
  Filter.forward omega0 cfg_pad st1 (vfield complex128 [:: 3] [:: 2; 2] 0) = Err ValueError /\
  (match Filter.forward omega0 cfg_pad st3 (vfield complex128 [:: 1] [:: 2; 2] 0) with
   | Ok (_, f) => f_tensor_shape f = [:: 3]
   | Err _ => False
   end).
Proof. by do !split. Qed.

(** ** FourierFilter: the cached transfer function *)

(** C4 (counterexample). Reassigning [transfer_function] does not
    invalidate the cached [_transfer_function]: on a one-point grid, a filter
    that has run once with the transfer function 1 and is then given the
    transfer function 0 still returns 1, whereas a filter built with 0
    returns 0. *)
Lemma C4_cache_ignores_reassignment :
  ~ (forall (cfg : Filter.config) (st : Filter.state algC) tf u adjoint p,
       out_val (Filter.operation omega0 cfg (Filter.set_transfer_function st tf) u adjoint) p =
       out_val (Filter.operation omega0 cfg (Filter.State tf None (Filter.internal_array st)) u adjoint) p).
Proof.
move=> /(_ cfg_one
   (Filter.compute_functions cfg_one (Filter.init (tf_const [:: 1%N] 1)) (vfield complex128 [::] [:: 1%N] 1))
   (tf_const [:: 1%N] 0) (vfield complex128 [::] [:: 1%N] 1) false 0%N).
rewrite /Filter.operation /= /shaped_shape /= subnn !(fft_point omega0 _).2.
rewrite /Filter.apply_scalar (fft_point omega0 _).1 /ifftshift !mulr1 mulr0 => -[] /eqP.
by rewrite oner_eq0.
Qed.

(** C4 (amended). After [transfer_function] is reassigned, the next call
    returns what a filter built with the new transfer function (and the same
    scratch buffer) returns only if the cached transfer function is stale for
    the field (absent or of another dtype); otherwise it returns exactly what
    the filter would have returned without the reassignment. *)
Theorem C4_amended (C : numClosedFieldType) (om : nat -> C) cfg (st : Filter.state C)
    tf u adjoint :
  out_field (Filter.operation om cfg (Filter.set_transfer_function st tf) u adjoint) =
  out_field (if Filter.tf_stale st u
             then Filter.operation om cfg (Filter.State tf None (Filter.internal_array st)) u adjoint
             else Filter.operation om cfg st u adjoint).
Proof.
case: st => nom [t|] ia; rewrite /Filter.tf_stale /=; last by rewrite !operation_out_field.
by case: ifP => H; rewrite !operation_out_field /Filter.compute_functions /Filter.tf_stale
  /Filter.recompute_internal_array /= H.
Qed.

(** ** FourierShift: zero shift *)

(** C6. When every component of the shift is zero, [forward] and
    [backward] return the input field cast to complex, without any
    transform. *)
Theorem C6_zero_shift_identity (R : realFieldType) (C : numClosedFieldType) (om : nat -> C)
    ngs gsh (shift : seq R) (u : field C) :
  all (fun x => x == 0) shift ->
  Shift.forward om (Shift.init ngs gsh shift) u = Ok (astype_complex u) /\
  Shift.backward om (Shift.init ngs gsh shift) u = Ok (astype_complex u).
Proof.
move=> H; rewrite /Shift.forward /Shift.backward /Shift.operation /Shift.init /Shift.set_shift.
by rewrite flatnonzero_nil.
Qed.

Lemma C6_witness :
  all (fun x => x == 0) [:: 0; 0 : rat] /\
  Shift.forward omega0 (Shift.init ngs0 [:: 2; 2]%N [:: 0; 0 : rat]) (vfield float64 [::] [:: 2; 2]%N 1) =
    Ok (astype_complex (vfield float64 [::] [:: 2; 2]%N 1)) /\
  Shift.backward omega0 (Shift.init ngs0 [:: 2; 2]%N [:: 0; 0 : rat]) (vfield float64 [::] [:: 2; 2]%N 1) =
    Ok (astype_complex (vfield float64 [::] [:: 2; 2]%N 1)).
Proof.
have H : all (fun x => x == 0) [:: 0; 0 : rat] by [].
split; [exact: H | exact (@C6_zero_shift_identity _ _ omega0 ngs0 [:: 2; 2]%N _ _ H)].
Defined.

(** ** FourierShift: the transformed axes *)

(** C7 (code defect). [_ft_axes] is [flatnonzero(shift) - 1], which names
    the right numpy axes only for scalar fields on 1-D and 2-D grids. For a
    vector field of 2 components on a 2x2 grid (shaped [(2, 2, 2)]) shifted
    along y only, the transform runs along axis 0, the tensor axis, and not
    along the y axis 1. For a scalar field on a 2x2x2 grid shifted along z
    only, the transform runs along axis 1 (y, whose shift is zero) and not
    along the z axis 0. *)
Theorem C7_ft_axes_wrong :
  Shift.fft_axes (Shift.init (R:=rat) ngs0 [:: 2; 2] [:: 0; 1]) [:: 2; 2; 2] = [:: 0%N] /\
  Shift.fft_axes (Shift.init (R:=rat) ngs0 [:: 2; 2; 2] [:: 0; 0; 1]) [:: 2; 2; 2] = [:: 1%N].
Proof. by split; vm_compute. Qed.

(** ** FourierShear and FourierRotation: the grid check *)

(** C8. A grid that is not regular or not 2-D makes both constructors
    raise [ValueError]. *)
Theorem C8_shear_rotation_grid_check (R : realFieldType) (C : numClosedFieldType)
    (ph : R -> C) fsc tan sin (g : grid R) shear shear_dim angle :
  ~~ is_regular g || (ndim g != 2%N) ->
  Shear.init ph fsc g shear shear_dim = Err ValueError /\
  Rotation.init ph fsc tan sin g angle = Err ValueError.
Proof. by move=> H; rewrite /Shear.init /Rotation.init H. Qed.

Lemma C8_witness :
  (~~ is_regular grid2_irregular || (ndim grid2_irregular != 2%N)) /\
  Shear.init phase0 fsc0 grid2_irregular 1 0 = Err ValueError /\
  Rotation.init phase0 fsc0 tan0 sin0 grid2_irregular 1 = Err ValueError.
Proof.
have H : ~~ is_regular grid2_irregular || (ndim grid2_irregular != 2%N) by [].
split; [exact: H | exact (@C8_shear_rotation_grid_check _ _ phase0 fsc0 tan0 sin0 _ 1 0 1 H)].
Defined.

(** ** FourierRotation: the returned value *)

(** C2 (code defect). [forward] returns the tuple [(f1, f2, f3)] of the
    three shear stages, not a field; handing it to the [forward] of another
    rotation raises [AttributeError] (a tuple has no [.shaped]). *)
Theorem C2_rotation_returns_tuple (R : realFieldType) (C : numClosedFieldType) (om : nat -> C)
    (st1 st2 : Rotation.state R C) (u : field C) :
  match Rotation.forward om st1 (PField u) with
  | Ok v => (exists f1 f2 f3, v = PTuple [:: PField f1; PField f2; PField f3]) /\
            Rotation.forward om st2 v = Err AttributeError
  | Err _ => True
  end.
Proof.
rewrite /Rotation.forward /Rotation.operation.
case: Shear.operation => // f1; case: Shear.operation => // f2; case: Shear.operation => // f3.
by split; [exists f1, f2, f3 | rewrite /Shear.operation].
Qed.

(** The first call succeeds on a regular 2x2 grid, so the second one is
    reached. *)
Lemma rotation_forward_runs :
  exists st v, Rotation.init phase0 fsc0 tan0 sin0 grid2 (1/2) = Ok st /\
    Rotation.forward omega0 st (PField (vfield complex128 [::] [:: 2; 2]%N 1)) = Ok v.
Proof. by do 2 eexists; split; reflexivity. Qed.

(** ** AngularSpectrumPropagator: wavelength and polarization *)

(** C9. [forward] and [backward] return a wavefront with the input's
    wavelength and input Stokes vector. *)
Theorem C9_wavefront_metadata (R : realFieldType) (C : numClosedFieldType) (om : nat -> C)
    cfg (st : Filter.state C) (wf : ASP.wavefront R C) :
  match ASP.forward om cfg st wf with
  | Ok (_, wf') => ASP.wavelength wf' = ASP.wavelength wf /\
                   ASP.input_stokes_vector wf' = ASP.input_stokes_vector wf
  | Err _ => True
  end /\
  match ASP.backward om cfg st wf with
  | Ok (_, wf') => ASP.wavelength wf' = ASP.wavelength wf /\
                   ASP.input_stokes_vector wf' = ASP.input_stokes_vector wf
  | Err _ => True
  end.
Proof.
rewrite /ASP.forward /ASP.backward /ASP.agnostic_call /ASP.forward_body /ASP.backward_body.
by split; [case: Filter.forward => [[]|] | case: Filter.backward => [[]|]].
Qed.

(** ** AngularSpectrumPropagator: choice of the construction *)

(** C5 (counterexample). On the 2x2 grid of unit spacing ([L_max = 2]),
    with distance 8 and wavelength 1, the criterion is 4 and every spacing is
    finer than it, yet the impulse-response construction is chosen. *)
Lemma C5_near_field_on_fine_grid :
  ~ (forall (p : ASP.propagator rat) (g : grid rat) wl Lm,
       ASP.L_max g = Ok Lm ->
       (ASP.make_instance p g wl = Ok ASP.ImpulseResponse <->
        has (fun d => wl * ASP.distance p / Lm < d) (delta g))).
Proof.
move=> /(_ (ASP.Propagator 8 2 1) grid2 1 2).
have -> : ASP.L_max grid2 = Ok 2 by vm_compute.
move=> /(_ erefl) [H _]; move: (H (erefl _)).
by vm_compute.
Qed.

(** C5 (amended). On a regular Cartesian grid with positive dimensions and
    spacings, [L_max] is the largest extent [dims * delta], and the
    impulse-response construction is chosen exactly when some spacing is
    FINER than [wavelength * distance / L_max]. *)
Theorem C5_amended (R : realFieldType) (p : ASP.propagator R) (g : grid R) wl :
  is_regular g -> is_cartesian g ->
  size (dims g) = size (delta g) -> (0 < size (dims g))%N ->
  all (fun n => 0 < n)%N (dims g) -> all (fun d => 0 < d) (delta g) ->
  exists Lm, ASP.L_max g = Ok Lm /\
    Lm \in [seq (m.1)%:R * m.2 | m <- zip (dims g) (delta g)] /\
    all (fun e => e <= Lm) [seq (m.1)%:R * m.2 | m <- zip (dims g) (delta g)] /\
    ASP.make_instance p g wl =
      if has (fun d => d * Lm < wl * ASP.distance p) (delta g)
      then Ok ASP.ImpulseResponse else Ok ASP.TransferFunctionNative.
Proof.
move=> Hr Hc Hs Hn Hpn Hpd.
case: (L_max_spec Hs Hn Hpn Hpd) => Lm [HL [HLm [Hm Ha]]].
by exists Lm; do !split => //; apply: make_instance_Ok.
Qed.

Lemma C5_witness :
  exists Lm, ASP.L_max grid2 = Ok Lm /\
    Lm \in [seq (m.1)%:R * m.2 | m <- zip (dims grid2) (delta grid2)] /\
    all (fun e => e <= Lm) [seq (m.1)%:R * m.2 | m <- zip (dims grid2) (delta grid2)] /\
    ASP.make_instance (ASP.Propagator (8 : rat) 2 1) grid2 1 =
      if has (fun d => d * Lm < 1 * ASP.distance (ASP.Propagator (8 : rat) 2 1)) (delta grid2)
      then Ok ASP.ImpulseResponse else Ok ASP.TransferFunctionNative.
Proof. apply: (@C5_amended _ (ASP.Propagator (8 : rat) 2 1) grid2 1); by vm_compute. Defined.

(** C10. With a negative distance and a positive wavelength, on a grid of
    positive dimensions and spacings, the criterion is negative and the
    frequency-space transfer function is always chosen (when the grid passes
    the regular-Cartesian check). *)
Theorem C10_negative_distance (R : realFieldType) (p : ASP.propagator R) (g : grid R) wl :
  ASP.distance p < 0 -> 0 < wl ->
  size (dims g) = size (delta g) -> (0 < size (dims g))%N ->
  all (fun n => 0 < n)%N (dims g) -> all (fun d => 0 < d) (delta g) ->
  ASP.make_instance p g wl =
    if is_regular g && is_cartesian g then Ok ASP.TransferFunctionNative else Err ValueError.
Proof.
move=> Hz Hw Hs Hn Hpn Hpd.
case: (L_max_spec Hs Hn Hpn Hpd) => Lm [HL [HLm _]].
case Hrc: (is_regular g && is_cartesian g); last by rewrite /ASP.make_instance Hrc.
case/andP: Hrc => Hr Hc; rewrite (make_instance_Ok p wl Hr Hc HL HLm).
rewrite (negbTE (introN hasP _)) // => -[d /(allP Hpd) Hd].
rewrite ltNge ltW // (@lt_trans _ _ 0) //; first by rewrite pmulr_rlt0.
exact: mulr_gt0.
Qed.

Lemma C10_witness :
  ASP.make_instance (ASP.Propagator (-1 : rat) 2 1) grid2 1 = Ok ASP.TransferFunctionNative.
Proof.
exact (@C10_negative_distance _ (ASP.Propagator (-1 : rat) 2 1) grid2 1
         erefl erefl erefl erefl erefl erefl).
Defined.


(** * Further properties of the operators *)

(** X2. After a successful call, a second call with the same field, in
    either direction, from the new state returns exactly what that call
    returns from the state before the first call: [_compute_functions]
    changes nothing the second time. *)
Theorem filter_op_repeat (C : numClosedFieldType) (om : nat -> C) cfg (st st1 : Filter.state C) u adj U :
  Filter.operation om cfg st u adj = Ok (st1, U) ->
  forall adj', Filter.operation om cfg st1 u adj' = Filter.operation om cfg st u adj'.
Proof. by move=> /op_state [-> _] adj'; apply: operation_repeat. Qed.

Lemma filter_op_repeat_witness : exists st1 U,
  Filter.operation omega0 cfg_one st_one u_one false = Ok (st1, U) /\
  forall adj', Filter.operation omega0 cfg_one st1 u_one adj' =
               Filter.operation omega0 cfg_one st_one u_one adj'.
Proof.
have [st1 [U E]] : exists st1 U, Filter.operation omega0 cfg_one st_one u_one false = Ok (st1, U).
  by do 2 eexists; reflexivity.
exists st1, U; split; [exact: E | exact: (filter_op_repeat E)].
Defined.

(** X3. After a successful call on a field whose grid has the internal grid's
    number of axes, the filter holds a cached transfer function of the
    field's dtype and a scratch buffer of the field's dtype whose number of
    dimensions is the field's tensor order plus that of the internal grid. *)
Theorem filter_op_cache (C : numClosedFieldType) (om : nat -> C) cfg (st st1 : Filter.state C) u adj U :
  size (f_grid_shape u) = size (Filter.internal_shape cfg) ->
  Filter.operation om cfg st u adj = Ok (st1, U) ->
  exists t sh,
    [/\ Filter._transfer_function st1 = Some t, a_dtype t = f_dtype u,
        Filter.internal_array st1 = Some (f_dtype u, sh) &
        size sh = (tensor_order u + size (Filter.internal_shape cfg))%N].
Proof. by move=> Hg /op_state [-> _]; apply: state_after_call. Qed.

Lemma filter_op_cache_witness : exists st1 U,
  size (f_grid_shape u_one) = size (Filter.internal_shape cfg_one) /\
  Filter.operation omega0 cfg_one st_one u_one false = Ok (st1, U) /\
  exists t sh,
    [/\ Filter._transfer_function st1 = Some t, a_dtype t = f_dtype u_one,
        Filter.internal_array st1 = Some (f_dtype u_one, sh) &
        size sh = (tensor_order u_one + size (Filter.internal_shape cfg_one))%N].
Proof.
have [st1 [U E]] : exists st1 U, Filter.operation omega0 cfg_one st_one u_one false = Ok (st1, U).
  by do 2 eexists; reflexivity.
have Hg : size (f_grid_shape u_one) = size (Filter.internal_shape cfg_one) by [].
exists st1, U; split; [exact: Hg | split; [exact: E | exact: (filter_op_cache Hg E)]].
Defined.







(** X9. [FourierShift] is linear: if the calls on [x] and [y] (same dtype,
    tensor shape and grid) succeed, the call on [a * x + b * y] succeeds and
    returns [a * T(x) + b * T(y)] entry by entry, with the same metadata. *)
Theorem shift_op_linear (R : realFieldType) (C : numClosedFieldType) (om : nat -> C) (st : Shift.state R C)
    d (T g : seq nat) (x y : array C) (a b : C) adj (X Y : field C) :
  Shift.operation om st (Field d T g x) adj = Ok X ->
  Shift.operation om st (Field d T g y) adj = Ok Y ->
  exists Z, Shift.operation om st (Field d T g (fun q => a * x q + b * y q)) adj = Ok Z /\
    [/\ f_dtype Z = f_dtype X, f_tensor_shape Z = f_tensor_shape X,
        f_grid_shape Z = f_grid_shape X &
        f_vals Z =1 (fun q => a * f_vals X q + b * f_vals Y q)].
Proof.
rewrite /Shift.operation; case: (Shift._shift_filter st) => [[bsh sf]|].
  rewrite /shaped_shape /=; case: ifP => // _ [<-] [<-].
  eexists; split; first reflexivity; split => //= q.
  by rewrite /ifftn /fftn mult_filter_linear.
by move=> [<-] [<-]; eexists; split; first reflexivity.
Qed.

Lemma shift_op_linear_witness : exists X Y,
  Shift.operation omega0 shift_st (Field complex128 [::] [:: 2; 2]%N (fun _ => 1)) false = Ok X /\
  Shift.operation omega0 shift_st (Field complex128 [::] [:: 2; 2]%N (fun _ => 'i)) false = Ok Y /\
  exists Z, Shift.operation omega0 shift_st
              (Field complex128 [::] [:: 2; 2]%N (fun q => 2%:R * (fun _ => 1) q + 'i * (fun _ => 'i) q))
              false = Ok Z /\
    [/\ f_dtype Z = f_dtype X, f_tensor_shape Z = f_tensor_shape X,
        f_grid_shape Z = f_grid_shape X &
        f_vals Z =1 (fun q => 2%:R * f_vals X q + 'i * f_vals Y q)].
Proof.
have [X E1] : exists X,
  Shift.operation omega0 shift_st (Field complex128 [::] [:: 2; 2]%N (fun _ => 1)) false = Ok X.
  by eexists; reflexivity.
have [Y E2] : exists Y,
  Shift.operation omega0 shift_st (Field complex128 [::] [:: 2; 2]%N (fun _ => 'i)) false = Ok Y.
  by eexists; reflexivity.
exists X, Y; split; [exact: E1 | split; [exact: E2 | exact: (shift_op_linear _ _ E1 E2)]].
Defined.

(** X10. [FourierShear] is linear: if the calls on [x] and [y] (same dtype,
    tensor shape and grid) succeed, the call on [a * x + b * y] succeeds and
    returns [a * T(x) + b * T(y)] entry by entry, with the same metadata. *)
Theorem shear_op_linear (R : realFieldType) (C : numClosedFieldType) (om : nat -> C) (st : Shear.state R C)
    d (T g : seq nat) (x y : array C) (a b : C) adj (X Y : field C) :
  Shear.operation om st (PField (Field d T g x)) adj = Ok X ->
  Shear.operation om st (PField (Field d T g y)) adj = Ok Y ->
  exists Z, Shear.operation om st (PField (Field d T g (fun q => a * x q + b * y q))) adj = Ok Z /\
    [/\ f_dtype Z = f_dtype X, f_tensor_shape Z = f_tensor_shape X,
        f_grid_shape Z = f_grid_shape X &
        f_vals Z =1 (fun q => a * f_vals X q + b * f_vals Y q)].
Proof.
rewrite /Shear.operation; case: (Shear._filter st) => hsh h.
rewrite /shaped_shape /=; case: ifP => // _ [<-] [<-].
eexists; split; first reflexivity; split => //= q.
by rewrite /ifftn /fftn mult_filter_linear.
Qed.

Lemma shear_op_linear_witness : exists X Y,
  Shear.operation omega0 shear_st (PField (Field complex128 [::] [:: 2; 2]%N (fun _ => 1))) false = Ok X /\
  Shear.operation omega0 shear_st (PField (Field complex128 [::] [:: 2; 2]%N (fun _ => 'i))) false = Ok Y /\
  exists Z, Shear.operation omega0 shear_st
              (PField (Field complex128 [::] [:: 2; 2]%N (fun q => 2%:R * (fun _ => 1) q + 'i * (fun _ => 'i) q)))
              false = Ok Z /\
    [/\ f_dtype Z = f_dtype X, f_tensor_shape Z = f_tensor_shape X,
        f_grid_shape Z = f_grid_shape X &
        f_vals Z =1 (fun q => 2%:R * f_vals X q + 'i * f_vals Y q)].
Proof.
have [X E1] : exists X,
  Shear.operation omega0 shear_st (PField (Field complex128 [::] [:: 2; 2]%N (fun _ => 1))) false = Ok X.
  by eexists; reflexivity.
have [Y E2] : exists Y,
  Shear.operation omega0 shear_st (PField (Field complex128 [::] [:: 2; 2]%N (fun _ => 'i))) false = Ok Y.
  by eexists; reflexivity.
exists X, Y; split; [exact: E1 | split; [exact: E2 | exact: (shear_op_linear _ _ E1 E2)]].
Defined.

(** X11. For a phase [exp(-1j t)] (so that [phase(-t) = conj(phase(t))]),
    [backward] of a shear by [s] and [forward] of the shear by [-s] both
    fail with the same exception or both return fields with the same
    metadata and entries. *)
Theorem shear_backward_negated (R : realFieldType) (C : numClosedFieldType) (om : nat -> C) (ph : R -> C) fsc
    (st : Shear.state R C) (s : R) (v : pyval C) :
  (forall t, ph (- t) = (ph t)^*) ->
  match Shear.backward om (Shear.set_shear ph fsc st s) v,
        Shear.forward om (Shear.set_shear ph fsc st (- s)) v with
  | Ok U, Ok V => [/\ f_dtype V = f_dtype U, f_tensor_shape V = f_tensor_shape U,
                      f_grid_shape V = f_grid_shape U & f_vals V =1 f_vals U]
  | Err e, Err e' => e = e'
  | _, _ => False
  end.
Proof.
move=> Hph; case: st => g d s0 f0; case: v => [u|l] //.
rewrite /Shear.backward /Shear.forward /Shear.operation /Shear.set_shear /Shear.make_filter /=.
case: (d == 1%N) => /=; case: ifP => // _; split => //;
  apply: (kinv_linear _ _ _).1 => p; by rewrite !mulNr Hph.
Qed.

Lemma shear_backward_negated_witness :
  (forall t, phase0 (- t) = (phase0 t)^*) /\
  match Shear.backward omega0 (Shear.set_shear phase0 fsc0 shear_st 1) (PField u_22),
        Shear.forward omega0 (Shear.set_shear phase0 fsc0 shear_st (- 1)) (PField u_22) with
  | Ok U, Ok V => [/\ f_dtype V = f_dtype U, f_tensor_shape V = f_tensor_shape U,
                      f_grid_shape V = f_grid_shape U & f_vals V =1 f_vals U]
  | Err e, Err e' => e = e'
  | _, _ => False
  end.
Proof. split; [exact: phase0_conj | exact: (@shear_backward_negated rat algC omega0 phase0 fsc0 shear_st 1 (PField u_22) phase0_conj)]. Defined.

(** X12. For a phase ramp with [numexpr(-s) = conj(numexpr(s))], [backward]
    of the shift by [s] and [forward] of the shift by [-s] both fail with the
    same exception or both return fields with the same metadata and
    entries. *)
Theorem shift_backward_negated (R : realFieldType) (C : numClosedFieldType) (om : nat -> C)
    (ngs : seq R -> seq nat -> array C) gsh (s : seq R) (u : field C) :
  (forall s' sh p, ngs [seq - x | x <- s'] sh p = (ngs s' sh p)^*) ->
  match Shift.backward om (Shift.init ngs gsh s) u,
        Shift.forward om (Shift.init ngs gsh [seq - x | x <- s]) u with
  | Ok U, Ok V => [/\ f_dtype V = f_dtype U, f_tensor_shape V = f_tensor_shape U,
                      f_grid_shape V = f_grid_shape U & f_vals V =1 f_vals U]
  | Err e, Err e' => e = e'
  | _, _ => False
  end.
Proof.
move=> Hngs; rewrite /Shift.backward /Shift.forward /Shift.operation /Shift.init /Shift.set_shift.
have -> : [seq x != 0 | x <- [seq - x | x <- s]] = [seq x != 0 | x <- s].
  by rewrite -map_comp; apply: eq_map => x /=; rewrite oppr_eq0.
rewrite flatnonzero_opp; case: (Shift.flatnonzero s) => [|i l] //=.
case: ifP => // _; split => //; apply: (kinv_linear _ _ _).1 => p.
by rewrite /ifftshift Hngs.
Qed.

Lemma shift_backward_negated_witness :
  (forall (s' : seq rat) sh p, ngs0 [seq - x | x <- s'] sh p = (ngs0 s' sh p)^*) /\
  match Shift.backward omega0 (Shift.init ngs0 [:: 2; 2]%N [:: 1; 0]) u_22,
        Shift.forward omega0 (Shift.init ngs0 [:: 2; 2]%N [seq - x | x <- [:: 1; 0 : rat]]) u_22 with
  | Ok U, Ok V => [/\ f_dtype V = f_dtype U, f_tensor_shape V = f_tensor_shape U,
                      f_grid_shape V = f_grid_shape U & f_vals V =1 f_vals U]
  | Err e, Err e' => e = e'
  | _, _ => False
  end.
Proof. split; [exact: ngs0_conj | exact: (@shift_backward_negated rat algC omega0 ngs0 [:: 2; 2]%N [:: 1; 0] u_22 ngs0_conj)]. Defined.







(** X16. The last stage of [FourierRotation.backward] is the adjoint of the
    last stage of [forward]: [<f3, v> = <u, g3>] for [u] and [v] of the same
    shape. *)
Theorem rotation_last_stage_adjoint (R : realFieldType) (C : numClosedFieldType) (om : nat -> C) (st : Rotation.state R C)
    (u v f1 f2 f3 g1 g2 g3 : field C) :
  shaped_shape v = shaped_shape u ->
  Rotation.forward om st (PField u) = Ok (PTuple [:: PField f1; PField f2; PField f3]) ->
  Rotation.backward om st (PField v) = Ok (PTuple [:: PField g1; PField g2; PField g3]) ->
  inner f3 v = inner u g3.
Proof.
move=> Hs; rewrite /Rotation.forward /Rotation.backward /Rotation.operation.
case E1: (Shear.operation om _ (PField u) false) => [h1|] //.
case E2: (Shear.operation om _ (PField h1) false) => [h2|] //.
case E3: (Shear.operation om _ (PField h2) false) => [h3|] // [? ? ?]; subst.
case F1: (Shear.operation om _ (PField v) true) => [k1|] //.
case F2: (Shear.operation om _ (PField k1) true) => [k2|] //.
case F3: (Shear.operation om _ (PField k2) true) => [k3|] // [? ? ?]; subst.
have S : forall (st' : Shear.state R C) (w W : field C) adj,
    Shear.operation om st' (PField w) adj = Ok W ->
    shaped_shape W = shaped_shape w.
  move=> st' w W adj E; have [w' [[<-] [HT HG _]]] := shear_out E.
  by rewrite /shaped_shape HT HG.
have Sh1 := S _ _ _ _ E1; have Sh2 := S _ _ _ _ E2.
have Sk1 := S _ _ _ _ F1; have Sk2 := S _ _ _ _ F2.
have H3 : shaped_shape v = shaped_shape f2 by rewrite Sh2 Sh1.
have H2 : shaped_shape g1 = shaped_shape f1 by rewrite Sk1 Sh1.
have H1 : shaped_shape g2 = shaped_shape u by rewrite Sk2 Sk1.
rewrite (shear_ops_adjoint H3 E3 F1) (shear_ops_adjoint H2 E2 F2).
exact: (shear_ops_adjoint H1 E1 F3).
Qed.

Lemma rotation_last_stage_adjoint_witness : exists st f1 f2 f3 g1 g2 g3,
  Rotation.init phase0 fsc0 tan0 sin0 grid2 (1/2) = Ok st /\
  Rotation.forward omega0 st (PField u_22) = Ok (PTuple [:: PField f1; PField f2; PField f3]) /\
  Rotation.backward omega0 st (PField (vfield complex128 [::] [:: 2; 2]%N 'i)) =
    Ok (PTuple [:: PField g1; PField g2; PField g3]) /\
  inner f3 (vfield complex128 [::] [:: 2; 2]%N 'i) = inner u_22 g3.
Proof.
have [st E] : exists st, Rotation.init phase0 fsc0 tan0 sin0 grid2 (1/2) = Ok st.
  by eexists; reflexivity.
have [f1 [f2 [f3 EF]]] : exists f1 f2 f3,
  Rotation.forward omega0 st (PField u_22) = Ok (PTuple [:: PField f1; PField f2; PField f3]).
  by move: E => [<-]; do 3 eexists; reflexivity.
have [g1 [g2 [g3 EB]]] : exists g1 g2 g3,
  Rotation.backward omega0 st (PField (vfield complex128 [::] [:: 2; 2]%N 'i)) =
    Ok (PTuple [:: PField g1; PField g2; PField g3]).
  by move: E => [<-]; do 3 eexists; reflexivity.
exists st, f1, f2, f3, g1, g2, g3; do !split; [exact: E | exact: EF | exact: EB |].
exact: (rotation_last_stage_adjoint (erefl : shaped_shape (vfield complex128 [::] [:: 2; 2]%N 'i) = shaped_shape u_22) EF EB).
Defined.

(** X17. [AngularSpectrumPropagator.backward] is the adjoint of [forward] on
    the electric fields, under the conditions of the underlying
    [FourierFilter] (fields on the input grid of the same dtype, [v] of the
    tensor shape of the output and [backward(v)] of the tensor shape of the
    input, internal grid and scratch buffers as [FastFourierTransform] and
    [_compute_functions] make them). *)
Theorem asp_adjoint (R : realFieldType) (C : numClosedFieldType) (om : nat -> C) cfg
    (st0 st1 st2 : Filter.state C) (wf wf' wf1 wf2 : ASP.wavefront R C) :
  Filter.config_ok cfg ->
  f_grid_shape (ASP.electric_field wf) = Filter.input_shape cfg ->
  f_grid_shape (ASP.electric_field wf') = Filter.input_shape cfg ->
  f_dtype (ASP.electric_field wf') = f_dtype (ASP.electric_field wf) ->
  Filter.buffer_fits cfg (Filter.internal_array (Filter.compute_functions cfg st0 (ASP.electric_field wf)))
    (ASP.electric_field wf) ->
  Filter.buffer_fits cfg (Filter.internal_array (Filter.compute_functions cfg st1 (ASP.electric_field wf')))
    (ASP.electric_field wf') ->
  ASP.forward om cfg st0 wf = Ok (st1, wf1) ->
  f_tensor_shape (ASP.electric_field wf') = f_tensor_shape (ASP.electric_field wf1) ->
  ASP.backward om cfg st1 wf' = Ok (st2, wf2) ->
  f_tensor_shape (ASP.electric_field wf2) = f_tensor_shape (ASP.electric_field wf) ->
  inner (ASP.electric_field wf1) (ASP.electric_field wf') =
  inner (ASP.electric_field wf) (ASP.electric_field wf2).
Proof.
move=> Hok Hg Hg' Hd Hb Hb'.
rewrite /ASP.forward /ASP.backward /ASP.agnostic_call /ASP.forward_body /ASP.backward_body.
case EF: (Filter.forward om cfg st0 _) => [[s1 U]|] // [? ?]; subst => /= HT.
case EB: (Filter.backward om cfg st1 _) => [[s2 V]|] // [? ?]; subst => /= HV.
have Hc : is_complex_dtype (f_dtype (ASP.electric_field wf')) =
          is_complex_dtype (f_dtype (ASP.electric_field wf)) by rewrite Hd.
exact: (filter_ops_adjoint Hok Hg Hg' Hc (or_introl Hd) Hb Hb' EF HT EB HV).
Qed.

Lemma asp_adjoint_witness : exists st1 wf1 st2 wf2,
  ASP.forward omega0 cfg_one st_one (wf_one 1) = Ok (st1, wf1) /\
  ASP.backward omega0 cfg_one st1 (wf_one 'i) = Ok (st2, wf2) /\
  inner (ASP.electric_field wf1) (ASP.electric_field (wf_one 'i)) =
  inner (ASP.electric_field (wf_one 1)) (ASP.electric_field wf2).
Proof.
have [st1 [wf1 E1]] : exists st1 wf1, ASP.forward omega0 cfg_one st_one (wf_one 1) = Ok (st1, wf1).
  by do 2 eexists; reflexivity.
have [st2 [wf2 [E2 HV]]] : exists st2 wf2, ASP.backward omega0 cfg_one st1 (wf_one 'i) = Ok (st2, wf2) /\
    f_tensor_shape (ASP.electric_field wf2) = f_tensor_shape (ASP.electric_field (wf_one 1)).
  by move: E1 => [<- _]; do 2 eexists; split; reflexivity.
have HT : f_tensor_shape (ASP.electric_field (wf_one 'i)) = f_tensor_shape (ASP.electric_field wf1).
  by move: E1 => [_ <-].
exists st1, wf1, st2, wf2; do !split; [exact: E1 | exact: E2 |].
by apply: (asp_adjoint _ _ _ _ _ _ E1 HT E2 HV).
Defined.


